(** * blob-game: terrain synthesis, seeding and the per-tick blob engine

    A shallow embedding of [src/app/game.jsx].  The three generators
    ([generateGrid], [generateFood], [generateBlobs]) and the state updater
    passed to [setSimState] are written as Rocq functions over an explicit
    random source; rendering and the interval timer are not modelled.

    Conventions.
    - JavaScript numbers that hold coordinates, indices and chain values are
      integers in the program and are modelled by [Z].
    - [Math.random()] is a draw from a stream of rationals in [0,1), which
      include the doubles of that interval.  The quotient by 100 that gives
      the threshold of a terrain transition is rounded to the nearest double,
      as the program computes it ([roundDouble]); the operations inside it
      are exact in doubles for the chains that occur.  The index
      [Math.floor(Math.random() * n)] is the floor of the exact product.
    - [null] cells of the grid are [None]; a thrown [TypeError] is [None] in
      the result of a function that can throw.
    - A [while] loop is a function of a bound [fuel] on the number of its
      turns; the theorems give a bound from which the loop ends by itself. *)

From Stdlib Require Import ZArith QArith Qround Qminmax Lia List Bool.
From Stdlib Require Floats.SpecFloat.
From stdpp Require Import base list.

Open Scope Z_scope.

(** ** JavaScript values stored in [stepsSinceMeal] *)

Module Js.

(** A property that is read with [blob.stepsSinceMeal]: a number that is
    an integer, the number [NaN], or [undefined] when the object has no
    such property. *)
Inductive value : Type :=
| undefined : value
| NaN : value
| num : Z -> value.

(** [v + 1]: [undefined] is converted to [NaN], and [NaN + 1] is [NaN]. *)
Definition add1 (v : value) : value :=
  match v with
  | num n => num (n + 1)
  | _ => NaN
  end.

(** [v < k] for an integer constant [k]: every comparison with [NaN]
    (and so with [undefined]) is [false]. *)
Definition lt (v : value) (k : Z) : bool :=
  match v with
  | num n => n <? k
  | _ => false
  end.

(** [v >= k], likewise [false] on [NaN] and [undefined]. *)
Definition ge (v : value) (k : Z) : bool :=
  match v with
  | num n => k <=? n
  | _ => false
  end.

Definition eq_dec (a b : value) : {a = b} + {a <> b}.
Proof. decide equality. apply Z.eq_dec. Defined.

End Js.

(** ** The random source *)

(** One result of [Math.random()]: the rational [dnum / dden], which the
    range field keeps in [0,1). *)
Record Draw : Type := mkDraw {
  dnum : Z;
  dden : positive;
  drange : (0 <=? dnum) && (dnum <? Z.pos dden) = true
}.

Definition drawQ (d : Draw) : Q := dnum d # dden d.

(** The random source: an infinite sequence of draws and the number of
    draws consumed so far. *)
Record Rng : Type := mkRng {
  draws : N -> Draw;
  cursor : N
}.

(** [Math.random()] *)
Definition Math_random (g : Rng) : Q * Rng :=
  (drawQ (draws g (cursor g)), mkRng (draws g) (N.succ (cursor g))).

(** [Math.floor(Math.random() * n)] *)
Definition randomBelow (n : Z) (g : Rng) : Z * Rng :=
  let (r, g') := Math_random g in (Qfloor (r * inject_Z n), g').

(** [a < b] on rationals, as a boolean. *)
Definition Qltb (a b : Q) : bool := negb (Qle_bool b a).

(** The source after [k] more draws. *)
Definition skip (k : N) (g : Rng) : Rng := mkRng (draws g) (cursor g + k)%N.

(** ** Constants *)

Definition maxStepsWithoutFood : Z := 100.
Definition initialBlobCount : nat := 100.
Definition initialFoodCount : nat := 100.

(** The literal [10000] that bounds [attempts] in both seeding loops. *)
Definition maxAttempts : Z := 10000.

(** ** Data model *)

Inductive Terrain : Type := soil | sand | water.

Definition Terrain_eq_dec (a b : Terrain) : {a = b} + {a <> b}.
Proof. decide equality. Defined.

(** The grid: [grid[y][x]], [None] for [null]. *)
Abbreviation Grid := (list (list (option Terrain))).

(** An entry of the frontier: [{ x, y, type, chain }]. *)
Record Cell : Type := mkCell {
  cellX : Z;
  cellY : Z;
  cellType : Terrain;
  cellChain : Z
}.

(** A move: [{ dx, dy }]. *)
Record Dir : Type := mkDir { dx : Z; dy : Z }.

(** A food item: [{ x, y }]. *)
Record Food : Type := mkFood { foodX : Z; foodY : Z }.

(** A blob: [{ x, y, stepsSinceMeal }]; the last property may be absent,
    which reads as [Js.undefined]. *)
Record Blob : Type := mkBlob {
  blobX : Z;
  blobY : Z;
  stepsSinceMeal : Js.value
}.

(** The simulation state: [{ food, blobs }]. *)
Record SimState : Type := mkSim {
  food : list Food;
  blobs : list Blob
}.

(** The eight directions, in the order of the array literal. *)
Definition directions0 : list Dir :=
  [ mkDir (-1) (-1); mkDir 0 (-1); mkDir 1 (-1);
    mkDir (-1) 0;                  mkDir 1 0;
    mkDir (-1) 1;    mkDir 0 1;    mkDir 1 1 ].

(** ** Terrain transition *)

(** *** The quotient of two doubles *)

(** [n / d] rounded to the nearest integer, a tie going to the even one
    ([d] positive). *)
Definition roundHalfEven (n d : Z) : Z :=
  let q := n / d in
  match 2 * (n mod d) ?= d with
  | Lt => q
  | Gt => q + 1
  | Eq => if Z.even q then q else q + 1
  end.

(** The exponent [e] with [2^e <= a / b < 2^(e+1)], for positive [a], [b]. *)
Definition floorLog2 (a b : Z) : Z :=
  let k := Z.log2 a - Z.log2 b in
  if 0 <=? k
  then (if b * 2 ^ k <=? a then k else k - 1)
  else (if b <=? a * 2 ^ (- k) then k else k - 1).

(** The double nearest to a rational: 53 significant bits, round to
    nearest, ties to even (IEEE 754 binary64).  The exponent range is not
    modelled; the thresholds below are 0 or lie between 1/200 and 1. *)
Definition roundDouble (q : Q) : Q :=
  let a := Z.abs (Qnum q) in
  let b := Z.pos (Qden q) in
  if a =? 0 then 0%Q
  else
    let s := 52 - floorLog2 a b in
    let v := if 0 <=? s
             then Qmake (roundHalfEven (a * 2 ^ s) b) (Z.to_pos (2 ^ s))
             else inject_Z (roundHalfEven a (b * 2 ^ (- s)) * 2 ^ (- s)) in
    if Qnum q <? 0 then Qopp v else v.

(** [Math.max(100 - (chain - 1) * 0.5, 0) / 100].  For a chain of at least
    1 the difference, the product by 0.5 and the maximum are exact in
    doubles (halves of small integers, or a negative number replaced by 0);
    the quotient is rounded. *)
Definition soilProbability (chain : Z) : Q :=
  roundDouble (Qmax (100 - inject_Z (chain - 1) * (1 # 2)) 0 / 100)%Q.

(** [Math.max(100 - (chain - 1) * 5, 0) / 100], likewise. *)
Definition sandProbability (chain : Z) : Q :=
  roundDouble (Qmax (100 - inject_Z (chain - 1) * 5) 0 / 100)%Q.

(** The [if (type === "soil") ... else if (type === "sand") ... else ...]
    block: the kind and chain of a child of a parent of kind [type] and chain
    [chain].  Only the soil and sand branches draw. *)
Definition childOf (type : Terrain) (chain : Z) (g : Rng) : Terrain * Z * Rng :=
  match type with
  | soil =>
      let (r, g') := Math_random g in
      if Qltb r (soilProbability chain)
      then (soil, chain + 1, g')
      else (sand, 1, g')
  | sand =>
      let (r, g') := Math_random g in
      if Qltb r (sandProbability chain)
      then (sand, chain + 1, g')
      else (water, 1, g')
  | water => (water, chain + 1, g)
  end.

(** ** Terrain generation *)

(** The mutable variables of [generateGrid]. *)
Record GenState : Type := mkGen {
  genGrid : Grid;
  genChain : list (list Z);
  genFrontier : list Cell;
  genDirections : list Dir;
  genRng : Rng
}.

(** [grid[y][x]]; the generator reads a cell only after the bounds check. *)
Definition gridAt (grid : Grid) (x y : Z) : option Terrain :=
  match grid !! Z.to_nat y with
  | Some row => match row !! Z.to_nat x with Some c => c | None => None end
  | None => None
  end.

(** [grid[y][x] = v] *)
Definition gridSet {A : Type} (grid : list (list A)) (x y : Z) (v : A) : list (list A) :=
  alter (fun row => <[Z.to_nat x := v]> row) (Z.to_nat y) grid.

(** [[directions[i], directions[r]] = [directions[r], directions[i]]] *)
Definition swap (l : list Dir) (i r : nat) : list Dir :=
  match l !! i, l !! r with
  | Some a, Some b => <[r := a]> (<[i := b]> l)
  | _, _ => l
  end.

(** The shuffle loop, from index [i] down to 1. *)
Fixpoint shuffleFrom (i : nat) (l : list Dir) (g : Rng) : list Dir * Rng :=
  match i with
  | O => (l, g)
  | S i' =>
      let (r, g') := randomBelow (Z.of_nat i + 1) g in
      shuffleFrom i' (swap l i (Z.to_nat r)) g'
  end.

Definition shuffle (l : list Dir) (g : Rng) : list Dir * Rng :=
  shuffleFrom (length l - 1) l g.

Section Game.

(** The side of the square grid ([const gridSize = 100] in the program). *)
Variable gridSize : Z.

(** The negation of the test that [continue]s on an out-of-bounds cell. *)
Definition inBounds (x y : Z) : bool :=
  negb ((x <? 0) || (x >=? gridSize) || (y <? 0) || (y >=? gridSize)).

(** The body of [for (const { dx, dy } of directions)], over the
    directions that remain to be visited. *)
Fixpoint expandNeighbors (ds : list Dir) (x y : Z) (type : Terrain) (chain : Z)
         (st : GenState) : GenState :=
  match ds with
  | [] => st
  | d :: ds' =>
      let nx := x + dx d in
      let ny := y + dy d in
      if negb (inBounds nx ny) then expandNeighbors ds' x y type chain st
      else
        match gridAt (genGrid st) nx ny with
        | Some _ => expandNeighbors ds' x y type chain st
        | None =>
            let '(newType, newChain, g') := childOf type chain (genRng st) in
            expandNeighbors ds' x y type chain
              (mkGen (gridSet (genGrid st) nx ny (Some newType))
                     (gridSet (genChain st) nx ny newChain)
                     (genFrontier st ++ [mkCell nx ny newType newChain])
                     (genDirections st)
                     g')
        end
  end.

(** One iteration of [while (frontier.length > 0)]; [None] when the loop
    is over.  The inner [None] is the [TypeError] of destructuring
    [undefined], which a draw below the frontier length never gives. *)
Definition growStep (st : GenState) : option (option GenState) :=
  if (0 <? Z.of_nat (length (genFrontier st))) then
    let (randomIndex, g1) :=
      randomBelow (Z.of_nat (length (genFrontier st))) (genRng st) in
    match genFrontier st !! Z.to_nat randomIndex with
    | None => Some None
    | Some current =>
        let frontier' := delete (Z.to_nat randomIndex) (genFrontier st) in
        let (dirs', g2) := shuffle (genDirections st) g1 in
        Some (Some (expandNeighbors dirs'
                      (cellX current) (cellY current)
                      (cellType current) (cellChain current)
                      (mkGen (genGrid st) (genChain st) frontier' dirs' g2)))
    end
  else None.

(** The [while] loop, with a bound on the number of iterations; [None]
    when the bound is reached or the body throws. *)
Fixpoint growLoop (fuel : nat) (st : GenState) : option GenState :=
  match fuel with
  | O => None
  | S fuel' =>
      match growStep st with
      | None => Some st
      | Some None => None
      | Some (Some st') => growLoop fuel' st'
      end
  end.

(** The state before the loop: all cells [null], all chains 0, the centre
    cell soil with chain 1 and alone in the frontier. *)
Definition genInit (g : Rng) : GenState :=
  let n := Z.to_nat gridSize in
  let startX := gridSize / 2 in
  let startY := gridSize / 2 in
  mkGen (gridSet (replicate n (replicate n None)) startX startY (Some soil))
        (gridSet (replicate n (replicate n 0)) startX startY 1)
        [mkCell startX startY soil 1]
        directions0
        g.

(** [generateGrid()], run for at most [fuel] iterations of its loop. *)
Definition generateGrid (fuel : nat) (g : Rng) : option (Grid * Rng) :=
  match growLoop fuel (genInit g) with
  | Some st => Some (genGrid st, genRng st)
  | None => None
  end.

(** ** Seeding *)

(** [grid[y][x] === "soil"]; [None] is the [TypeError] of indexing
    [grid[y]] when the grid has no row [y]. *)
Definition isSoilAt (grid : Grid) (x y : Z) : option bool :=
  match grid !! Z.to_nat y with
  | None => None
  | Some row =>
      Some (match row !! Z.to_nat x with
            | Some (Some soil) => true
            | _ => false
            end)
  end.

(** [(f) => f.x === x && f.y === y] on food items and on blobs. *)
Definition foodAt (x y : Z) (f : Food) : bool := (foodX f =? x) && (foodY f =? y).
Definition blobAt (x y : Z) (b : Blob) : bool := (blobX b =? x) && (blobY b =? y).

(** The [while] loop of [generateFood], with its two counters; [fuel]
    bounds the number of iterations. *)
Fixpoint foodLoop (fuel : nat) (grid : Grid) (food : list Food) (attempts : Z)
         (g : Rng) : option (list Food * Z * Rng) :=
  match fuel with
  | O => None
  | S fuel' =>
      if (length food <? initialFoodCount)%nat && (attempts <? maxAttempts) then
        let (x, g1) := randomBelow gridSize g in
        let (y, g2) := randomBelow gridSize g1 in
        match isSoilAt grid x y with
        | None => None
        | Some onSoil =>
            let food' :=
              if onSoil && negb (existsb (foodAt x y) food)
              then food ++ [mkFood x y] else food in
            foodLoop fuel' grid food' (attempts + 1) g2
        end
      else Some (food, attempts, g)
  end.

(** [generateFood(grid)] *)
Definition generateFood (fuel : nat) (grid : Grid) (g : Rng) : option (list Food * Rng) :=
  match foodLoop fuel grid [] 0 g with
  | Some (food, _, g') => Some (food, g')
  | None => None
  end.

(** The [while] loop of [generateBlobs]: the pushed object is [{ x, y }],
    so [stepsSinceMeal] of a seeded blob reads as [undefined]. *)
Fixpoint blobLoop (fuel : nat) (grid : Grid) (blobs : list Blob) (attempts : Z)
         (g : Rng) : option (list Blob * Z * Rng) :=
  match fuel with
  | O => None
  | S fuel' =>
      if (length blobs <? initialBlobCount)%nat && (attempts <? maxAttempts) then
        let (x, g1) := randomBelow gridSize g in
        let (y, g2) := randomBelow gridSize g1 in
        match isSoilAt grid x y with
        | None => None
        | Some onSoil =>
            let blobs' :=
              if onSoil && negb (existsb (blobAt x y) blobs)
              then blobs ++ [mkBlob x y Js.undefined] else blobs in
            blobLoop fuel' grid blobs' (attempts + 1) g2
        end
      else Some (blobs, attempts, g)
  end.

(** [generateBlobs(grid)] *)
Definition generateBlobs (fuel : nat) (grid : Grid) (g : Rng) : option (list Blob * Rng) :=
  match blobLoop fuel grid [] 0 g with
  | Some (blobs, _, g') => Some (blobs, g')
  | None => None
  end.

(** The initial value of [simState]:
    [{ food: generateFood(grid), blobs: generateBlobs(grid) }]. *)
Definition initialState (fuel : nat) (grid : Grid) (g : Rng) : option (SimState * Rng) :=
  match generateFood fuel grid g with
  | None => None
  | Some (food, g1) =>
      match generateBlobs fuel grid g1 with
      | None => None
      | Some (blobs, g2) => Some (mkSim food blobs, g2)
      end
  end.

(** ** The tick *)

(** [l.findIndex(p)], with [None] for [-1]. *)
Fixpoint findIndex {A : Type} (p : A -> bool) (l : list A) : option nat :=
  match l with
  | [] => None
  | a :: l' => if p a then Some O else option_map S (findIndex p l')
  end.

(** Step 2 of the updater: the two nested [for] loops over [dx] and [dy]
    that collect the moves staying on the grid. *)
Definition neighborMoves (x y : Z) : list Dir :=
  flat_map (fun dx =>
    flat_map (fun dy =>
      if (dx =? 0) && (dy =? 0) then []
      else
        let newX := x + dx in
        let newY := y + dy in
        if (newX >=? 0) && (newX <? gridSize) && (newY >=? 0) && (newY <? gridSize)
        then [mkDir dx dy] else [])
      [-1; 0; 1])
    [-1; 0; 1].

(** [l[Math.floor(Math.random() * l.length)]] *)
Definition pick {A : Type} (l : list A) (g : Rng) : option A * Rng :=
  let (i, g') := randomBelow (Z.of_nat (length l)) g in (l !! Z.to_nat i, g').

(** The callback of [prevState.blobs.map]: one blob against the food list
    as it stands.  [None] is the [TypeError] of reading [dx] of an
    [undefined] move. *)
Definition stepBlob (blob : Blob) (newFood : list Food) (g : Rng)
  : option (Blob * list Food * Rng) :=
  let x := blobX blob in
  let y := blobY blob in
  match findIndex (foodAt x y) newFood with
  | Some foodIndexAtCurrent =>
      Some (mkBlob x y (Js.num 0), delete foodIndexAtCurrent newFood, g)
  | None =>
      let neighbors := neighborMoves x y in
      let foodNeighbors :=
        List.filter (fun move => existsb (foodAt (x + dx move) (y + dy move)) newFood)
                    neighbors in
      let (chosenMove, g') :=
        if (0 <? Z.of_nat (length foodNeighbors))
        then pick foodNeighbors g
        else pick neighbors g in
      match chosenMove with
      | None => None
      | Some move =>
          let newX := x + dx move in
          let newY := y + dy move in
          match findIndex (foodAt newX newY) newFood with
          | Some foodIndexAtNew =>
              Some (mkBlob newX newY (Js.num 0), delete foodIndexAtNew newFood, g')
          | None =>
              Some (mkBlob newX newY (Js.add1 (stepsSinceMeal blob)), newFood, g')
          end
      end
  end.

(** [prevState.blobs.map(...)]: the blobs in order, each against the food
    list left by the blobs before it. *)
Fixpoint mapBlobs (bs : list Blob) (newFood : list Food) (g : Rng)
  : option (list Blob * list Food * Rng) :=
  match bs with
  | [] => Some ([], newFood, g)
  | b :: bs' =>
      match stepBlob b newFood g with
      | None => None
      | Some (b', food1, g1) =>
          match mapBlobs bs' food1 g1 with
          | None => None
          | Some (out, food2, g2) => Some (b' :: out, food2, g2)
          end
      end
  end.

(** [(blob) => blob.stepsSinceMeal < maxStepsWithoutFood] *)
Definition survives (b : Blob) : bool :=
  Js.lt (stepsSinceMeal b) maxStepsWithoutFood.

(** The updater passed to [setSimState]: one tick. *)
Definition advance (prevState : SimState) (g : Rng) : option (SimState * Rng) :=
  match mapBlobs (blobs prevState) (food prevState) g with
  | None => None
  | Some (mapped, newFood, g') =>
      Some (mkSim newFood (List.filter survives mapped), g')
  end.

End Game.

(** ** Vocabulary of the statements *)

(** The cell a blob stands on, as a food item. *)
Definition cellOf (b : Blob) : Food := mkFood (blobX b) (blobY b).

(** [stepsSinceMeal] is the number 0. *)
Definition fed (b : Blob) : Prop := stepsSinceMeal b = Js.num 0.

Definition fedb (b : Blob) : bool :=
  match stepsSinceMeal b with
  | Js.num 0 => true
  | _ => false
  end.

(** The blob is on the grid. *)
Definition onGrid (gridSize : Z) (b : Blob) : Prop :=
  inBounds gridSize (blobX b) (blobY b) = true.

(** One blob before and after a tick: at most one cell away on each axis,
    and still on the grid if it was. *)
Definition near (gridSize : Z) (b b' : Blob) : Prop :=
  Z.abs (blobX b' - blobX b) <= 1 /\ Z.abs (blobY b' - blobY b) <= 1 /\
  (onGrid gridSize b -> onGrid gridSize b').

(** The cell of the grid under a coordinate is soil. *)
Definition onSoil (grid : Grid) (x y : Z) : Prop := gridAt grid x y = Some soil.

(** What holds of the blobs collected by [generateBlobs] at every turn of
    its loop. *)
Definition seeded (gridSize : Z) (grid : Grid) (bs : list Blob) : Prop :=
  Forall (fun b => onSoil grid (blobX b) (blobY b) /\ onGrid gridSize b /\
                   stepsSinceMeal b = Js.undefined) bs /\
  NoDup (map cellOf bs) /\
  (length bs <= initialBlobCount)%nat.

(** A square grid of side [n]. *)
Definition wfGrid {A : Type} (n : nat) (grid : list (list A)) : Prop :=
  length grid = n /\ Forall (fun row => length row = n) grid.

(** The cell has been given a terrain kind. *)
Definition assigned (grid : Grid) (x y : Z) : Prop := gridAt grid x y <> None.

(** The number of [null] cells of a row and of a grid. *)
Definition isHole (c : option Terrain) : bool :=
  match c with None => true | Some _ => false end.

Definition holesRow (row : list (option Terrain)) : nat :=
  length (List.filter isHole row).

Fixpoint holes (grid : Grid) : nat :=
  match grid with
  | [] => O
  | row :: rest => (holesRow row + holes rest)%nat
  end.

(** Some entry of the frontier is at the cell. *)
Definition inFrontier (fr : list Cell) (x y : Z) : Prop :=
  exists c, c ∈ fr /\ cellX c = x /\ cellY c = y.

(** Every neighbour of the cell that is on the grid is assigned. *)
Definition closedAt (gridSize : Z) (grid : Grid) (x y : Z) : Prop :=
  forall d, d ∈ directions0 ->
            inBounds gridSize (x + dx d) (y + dy d) = true ->
            assigned grid (x + dx d) (y + dy d).

(** The invariant of the [while] loop of [generateGrid]: the grid is
    square, the centre is assigned, the directions array still holds the
    eight directions, and every assigned cell either waits in the frontier
    or already has all its neighbours assigned. *)
Definition genInv (gridSize : Z) (st : GenState) : Prop :=
  wfGrid (Z.to_nat gridSize) (genGrid st) /\
  assigned (genGrid st) (gridSize / 2) (gridSize / 2) /\
  (forall d, d ∈ directions0 -> d ∈ genDirections st) /\
  (forall x y, inBounds gridSize x y = true -> assigned (genGrid st) x y ->
               inFrontier (genFrontier st) x y \/ closedAt gridSize (genGrid st) x y).

(** What the inner [for] loop may change: assigned cells stay assigned, a
    newly assigned cell is pushed on the frontier, the frontier only grows,
    and each assignment trades one [null] cell for one frontier entry. *)
Definition grows (gridSize : Z) (st st' : GenState) : Prop :=
  wfGrid (Z.to_nat gridSize) (genGrid st') /\
  (forall x y, inBounds gridSize x y = true ->
               assigned (genGrid st) x y -> assigned (genGrid st') x y) /\
  (forall x y, inBounds gridSize x y = true -> assigned (genGrid st') x y ->
               assigned (genGrid st) x y \/ inFrontier (genFrontier st') x y) /\
  (forall c, c ∈ genFrontier st -> c ∈ genFrontier st') /\
  (holes (genGrid st') + length (genFrontier st') =
   holes (genGrid st) + length (genFrontier st))%nat /\
  genDirections st' = genDirections st.

(** The kind and chain at the end of a generation path: the cell of kind
    and chain [tc] begets a child with the random source [gs[0]], which
    begets a child with [gs[1]], and so on. *)
Definition descend (tc : Terrain * Z) (gs : list Rng) : Terrain * Z :=
  fold_left (fun tc g => let '(t, c, _) := childOf (fst tc) (snd tc) g in (t, c)) gs tc.

(** ** A run of the program *)

Lemma drawOf_range (num : Z) (den : positive) :
  (0 <=? num mod Z.pos den) && (num mod Z.pos den <? Z.pos den) = true.
Proof.
  pose proof (Z.mod_pos_bound num (Z.pos den) eq_refl).
  apply andb_true_iff. split; [apply Z.leb_le | apply Z.ltb_lt]; lia.
Qed.

(** The draw [(num mod den) / den]. *)
Definition drawOf (num : Z) (den : positive) : Draw :=
  mkDraw (num mod Z.pos den) den (drawOf_range num den).

(** A random source that always returns the same value. *)
Definition constRng (d : Draw) : Rng := mkRng (fun _ => d) 0.

(** A grid of side [n] that is soil everywhere. *)
Definition allSoil (n : nat) : Grid := replicate n (replicate n (Some soil)).

(** More turns than the seeding loops and the generation loop of a grid
    of side 100 can take. *)
Definition seedFuel : nat := S (Z.to_nat maxAttempts).
Definition genFuel : nat := S (Z.to_nat (100 * 100)).

(** The number of draws [generateGrid] makes on a grid of side 100 whose
    cells all have a drawing parent: 8 for each of the 10000 turns of the
    loop, and one for each of the 9999 cells assigned in the loop. *)
Definition genDraws : N := 89999.

(** The values of [Math.random()] in the run: 0 while the grid is
    generated, which makes every cell soil; then, for the [j]-th seeding
    attempt, [(2 (j mod 100) + 1) / 200], which gives the column
    [j mod 100], followed by 0 (first hundred attempts, the food, on row 0)
    or 1/2 (second hundred, the blobs, on row 50).  The products of these
    values with 100 are far from an integer or exact, so that rounding in
    doubles gives the same columns and rows. *)
Definition runDraws (i : N) : Draw :=
  if (i <? genDraws)%N then drawOf 0 1
  else
    let k := Z.of_N (i - genDraws) in
    if Z.even k then drawOf (2 * (k / 2) + 1) 200
    else drawOf ((k / 2 / 100) mod 2) 2.

Definition programRun : Rng := mkRng runDraws 0.

(** The food items and the blobs of the run, as pushed by the seeding
    loops. *)
Definition rowFood (y : Z) : list Food :=
  map (fun j => mkFood (Z.of_nat j) y) (seq 0 100).

Definition rowBlobs (y : Z) : list Blob :=
  map (fun j => mkBlob (Z.of_nat j) y Js.undefined) (seq 0 100).

(** What the [Game] component computes up to its first render: the grid,
    then the initial [simState]. *)
Definition startGame (gridSize : Z) (g : Rng) : option (Grid * SimState * Rng) :=
  match generateGrid gridSize genFuel g with
  | None => None
  | Some (grid, g1) =>
      match initialState gridSize seedFuel grid g1 with
      | None => None
      | Some (st, g2) => Some (grid, st, g2)
      end
  end.

(** The state after the first tick of the interval timer. *)
Definition firstTick (gridSize : Z) (g : Rng) : option SimState :=
  match startGame gridSize g with
  | None => None
  | Some (_, st, g2) =>
      match advance gridSize st g2 with
      | None => None
      | Some (st', _) => Some st'
      end
  end.

(** ** The timer *)

(** The state after [n] ticks of the interval timer: the updater applied
    [n] times, each time to the state the previous tick left. *)
Fixpoint runTicks (gridSize : Z) (n : nat) (st : SimState) (g : Rng)
  : option (SimState * Rng) :=
  match n with
  | O => Some (st, g)
  | S n' =>
      match advance gridSize st g with
      | None => None
      | Some (st', g') => runTicks gridSize n' st' g'
      end
  end.

(** A food item is on the blob's cell or on one of the eight cells
    around it. *)
Definition within1 (b : Blob) (f : Food) : Prop :=
  Z.abs (foodX f - blobX b) <= 1 /\ Z.abs (foodY f - blobY b) <= 1.

(** The counter is a number that is at least [k], or it is not a number. *)
Definition hungerFrom (k : Z) (b : Blob) : Prop :=
  match stepsSinceMeal b with
  | Js.num n => k <= n
  | _ => True
  end.

(** One blob through a tick: near where it was, and either fed or one step
    hungrier. *)
Definition stepped (gridSize : Z) (b b' : Blob) : Prop :=
  near gridSize b b' /\
  (fed b' \/ stepsSinceMeal b' = Js.add1 (stepsSinceMeal b)).

(** The soil cells of the grid within the square of side [gridSize], row
    by row. *)
Definition soilCells (gridSize : Z) (grid : Grid) : list Food :=
  flat_map (fun y =>
    flat_map (fun x =>
      match gridAt grid x y with
      | Some soil => [mkFood x y]
      | _ => []
      end) (seqZ 0 gridSize)) (seqZ 0 gridSize).

(** ** Vocabulary of the statements about the generated terrain *)

(** The order of the kinds along a generation path. *)
Definition rank (t : Terrain) : Z :=
  match t with soil => 0 | sand => 1 | water => 2 end.

(** The distance of a cell to the start cell, in king's moves. *)
Definition fromCentre (gridSize x y : Z) : Z :=
  Z.max (Z.abs (x - gridSize / 2)) (Z.abs (y - gridSize / 2)).

(** The cell is joined to the start cell by a path of cells of the grid,
    each next to the one before (eight directions), whose kinds all have
    rank at most [k]: soil only for [k = 0], soil or sand for [k = 1]. *)
Inductive reach (gridSize : Z) (grid : Grid) (k : Z) : Z -> Z -> Prop :=
| reach_centre (t : Terrain) :
    gridAt grid (gridSize / 2) (gridSize / 2) = Some t -> rank t <= k ->
    reach gridSize grid k (gridSize / 2) (gridSize / 2)
| reach_step (x y : Z) (d : Dir) (t : Terrain) :
    reach gridSize grid k x y ->
    d ∈ directions0 ->
    inBounds gridSize (x + dx d) (y + dy d) = true ->
    gridAt grid (x + dx d) (y + dy d) = Some t -> rank t <= k ->
    reach gridSize grid k (x + dx d) (y + dy d).

(** How far from the start cell a cell of a kind can be. *)
Definition cellBound (gridSize : Z) (t : Terrain) (x y : Z) : Prop :=
  match t with
  | soil => fromCentre gridSize x y <= 200
  | sand => fromCentre gridSize x y <= 221
  | water => True
  end.

(** What holds of the chain of a cell of a kind. *)
Definition chainBound (gridSize : Z) (t : Terrain) (chain x y : Z) : Prop :=
  match t with
  | soil => 1 <= chain <= 201 /\ fromCentre gridSize x y <= chain - 1
  | sand => 1 <= chain <= 21 /\ fromCentre gridSize x y <= 200 + chain
  | water => True
  end.

(** An entry pushed while the neighbours of the cell [(x, y)] of kind
    [type] and chain [chain] are expanded in the directions [ds]. *)
Definition born (gridSize : Z) (ds : list Dir) (x y : Z) (type : Terrain) (chain : Z)
           (e : Cell) : Prop :=
  exists d g,
    d ∈ ds /\ cellX e = x + dx d /\ cellY e = y + dy d /\
    inBounds gridSize (cellX e) (cellY e) = true /\
    (cellType e, cellChain e) = fst (childOf type chain g).

(** What the inner loop does to the grid and the frontier, cell by cell. *)
Definition traced (gridSize : Z) (ds : list Dir) (x y : Z) (type : Terrain) (chain : Z)
           (st st' : GenState) : Prop :=
  wfGrid (Z.to_nat gridSize) (genGrid st') /\
  (forall nx ny t, inBounds gridSize nx ny = true ->
                   gridAt (genGrid st) nx ny = Some t ->
                   gridAt (genGrid st') nx ny = Some t) /\
  (forall e, e ∈ genFrontier st -> e ∈ genFrontier st') /\
  (forall e, e ∈ genFrontier st' ->
             e ∈ genFrontier st \/
             (born gridSize ds x y type chain e /\
              gridAt (genGrid st') (cellX e) (cellY e) = Some (cellType e))) /\
  (forall nx ny t, inBounds gridSize nx ny = true ->
                   gridAt (genGrid st') nx ny = Some t ->
                   gridAt (genGrid st) nx ny = Some t \/
                   exists e, e ∈ genFrontier st' /\
                             born gridSize ds x y type chain e /\
                             cellX e = nx /\ cellY e = ny /\ cellType e = t) /\
  genDirections st' = genDirections st.

(** The second invariant of the [while] loop of [generateGrid]: the start
    cell is soil, the directions array is a rearrangement of the eight
    directions, every frontier entry is on the grid and records the kind
    the grid holds at its cell, with a chain within bounds, and every
    assigned cell is joined to the start cell through kinds of rank not
    above its own and is within the distance its kind allows. *)
Definition landInv (gridSize : Z) (st : GenState) : Prop :=
  wfGrid (Z.to_nat gridSize) (genGrid st) /\
  gridAt (genGrid st) (gridSize / 2) (gridSize / 2) = Some soil /\
  genDirections st ≡ₚ directions0 /\
  (forall e, e ∈ genFrontier st ->
             inBounds gridSize (cellX e) (cellY e) = true /\
             gridAt (genGrid st) (cellX e) (cellY e) = Some (cellType e) /\
             chainBound gridSize (cellType e) (cellChain e) (cellX e) (cellY e)) /\
  (forall x y t, inBounds gridSize x y = true -> gridAt (genGrid st) x y = Some t ->
                 reach gridSize (genGrid st) (rank t) x y /\ cellBound gridSize t x y).

(** ** The thresholds in the IEEE 754 specification of the Standard Library *)

(** The binary64 number [m * 2^e], normalised. *)
Definition b64 (m e : Z) : SpecFloat.spec_float :=
  SpecFloat.binary_normalize 53 1024 m e false.

(** The rational value of a finite binary64 number. *)
Definition SF2Q (x : SpecFloat.spec_float) : Q :=
  match x with
  | SpecFloat.S754_finite s m e =>
      let v := if 0 <=? e then inject_Z (Z.pos m * 2 ^ e)
               else Qmake (Z.pos m) (Z.to_pos (2 ^ (- e))) in
      if s then Qopp v else v
  | _ => 0%Q
  end.

(** [Math.max] of two numbers. *)
Definition SFmax (x y : SpecFloat.spec_float) : SpecFloat.spec_float :=
  if SpecFloat.SFltb x y then y else x.

(** The two threshold expressions with every operation in binary64. *)
Definition soilProbabilityF (chain : Z) : SpecFloat.spec_float :=
  SpecFloat.SFdiv 53 1024
    (SFmax (SpecFloat.SFsub 53 1024 (b64 100 0)
              (SpecFloat.SFmul 53 1024 (b64 (chain - 1) 0) (b64 1 (-1))))
           (b64 0 0))
    (b64 100 0).

Definition sandProbabilityF (chain : Z) : SpecFloat.spec_float :=
  SpecFloat.SFdiv 53 1024
    (SFmax (SpecFloat.SFsub 53 1024 (b64 100 0)
              (SpecFloat.SFmul 53 1024 (b64 (chain - 1) 0) (b64 5 0)))
           (b64 0 0))
    (b64 100 0).

(** The double nearest to 0.99, just below it: a value [Math.random()] can
    return. *)
Definition near99 : Draw := mkDraw 8917127262193582 9007199254740992 eq_refl.

(** ** The random source: range of an index draw *)

Lemma draw_bounds (d : Draw) : 0 <= dnum d < Z.pos (dden d).
Proof.
  destruct d as [a b H]; simpl.
  apply andb_true_iff in H. destruct H as [H1 H2].
  apply Z.leb_le in H1. apply Z.ltb_lt in H2. lia.
Qed.

Lemma Math_random_skip (g : Rng) : snd (Math_random g) = skip 1 g.
Proof. unfold Math_random, skip; simpl. f_equal. lia. Qed.

Lemma skip_skip (a b : N) (g : Rng) : skip a (skip b g) = skip (b + a) g.
Proof. unfold skip; simpl. f_equal. lia. Qed.

Lemma skip_0 (g : Rng) : skip 0 g = g.
Proof. destruct g as [f c]; unfold skip; simpl. f_equal. lia. Qed.

(** An index drawn below a positive [n] is an index of [0 .. n-1]. *)
Lemma randomBelow_range (n : Z) (g : Rng) :
  0 < n -> 0 <= fst (randomBelow n g) < n.
Proof.
  intros Hn. unfold randomBelow, Math_random, drawQ; simpl.
  pose proof (draw_bounds (draws g (cursor g))) as [Ha Hb].
  set (a := dnum (draws g (cursor g))) in *.
  set (b := dden (draws g (cursor g))) in *.
  unfold Qfloor, Qmult, inject_Z; simpl.
  rewrite Pos.mul_1_r. split.
  - apply Z.div_pos; nia.
  - apply Z.div_lt_upper_bound; nia.
Qed.

Lemma randomBelow_rng (n : Z) (g : Rng) : snd (randomBelow n g) = skip 1 g.
Proof. unfold randomBelow. simpl. unfold skip. f_equal. lia. Qed.

Lemma randomBelow_0 (g : Rng) : fst (randomBelow 0 g) = 0.
Proof.
  unfold randomBelow, Math_random, drawQ; simpl.
  unfold Qfloor, Qmult, inject_Z; simpl.
  rewrite Z.mul_0_r. apply Z.div_0_l. lia.
Qed.

(** A pick from a non-empty array is one of its elements. *)
Lemma pick_nonempty {A : Type} (l : list A) (g : Rng) :
  l <> [] -> exists a, fst (pick l g) = Some a /\ a ∈ l.
Proof.
  intros Hl. unfold pick.
  pose proof (randomBelow_range (Z.of_nat (length l)) g) as Hr.
  destruct (randomBelow (Z.of_nat (length l)) g) as [i g'] eqn:E; simpl in *.
  assert (0 < Z.of_nat (length l)) by (destruct l; simpl in *; [congruence | lia]).
  specialize (Hr H).
  destruct (lookup_lt_is_Some_2 l (Z.to_nat i)) as [a Ha]; [lia |].
  exists a. split; [exact Ha | eapply list_elem_of_lookup_2; exact Ha].
Qed.

Lemma pick_rng {A : Type} (l : list A) (g : Rng) : snd (pick l g) = skip 1 g.
Proof.
  unfold pick. pose proof (randomBelow_rng (Z.of_nat (length l)) g).
  destruct (randomBelow _ g); simpl in *; assumption.
Qed.

Lemma pick_elem {A : Type} (l : list A) (g : Rng) (a : A) :
  fst (pick l g) = Some a -> a ∈ l.
Proof.
  unfold pick. destruct (randomBelow _ g) as [i g']; simpl.
  apply list_elem_of_lookup_2.
Qed.

Lemma Qltb_lt (a b : Q) : Qltb a b = true <-> (a < b)%Q.
Proof.
  unfold Qltb. rewrite negb_true_iff. split; intros H.
  - destruct (Qlt_le_dec a b) as [|Hle]; [assumption |].
    apply Qle_bool_iff in Hle. congruence.
  - destruct (Qle_bool b a) eqn:E; [| reflexivity].
    apply Qle_bool_iff in E. exfalso. eapply Qlt_not_le; eassumption.
Qed.

Lemma Qltb_ge (a b : Q) : Qltb a b = false <-> (b <= a)%Q.
Proof.
  unfold Qltb. rewrite negb_false_iff. apply Qle_bool_iff.
Qed.

(** From here on the random source is used through the lemmas above. *)
Arguments randomBelow : simpl never.
Arguments Math_random : simpl never.
Arguments skip : simpl never.
Arguments pick : simpl never.

(** ** Arrays: [findIndex], [some], [splice] *)

Lemma findIndex_Some {A : Type} (p : A -> bool) (l : list A) (i : nat) :
  findIndex p l = Some i -> exists a, l !! i = Some a /\ p a = true.
Proof.
  revert i. induction l as [| a l IH]; intros i H; simpl in H; [discriminate |].
  destruct (p a) eqn:Ea.
  - injection H as <-. exists a. split; [reflexivity | assumption].
  - destruct (findIndex p l) as [j |] eqn:Ej; simpl in H; [| discriminate].
    injection H as <-. destruct (IH j eq_refl) as [b [Hb Hp]].
    exists b. split; assumption.
Qed.

Lemma findIndex_None {A : Type} (p : A -> bool) (l : list A) :
  findIndex p l = None <-> existsb p l = false.
Proof.
  induction l as [| a l IH]; simpl; [tauto |].
  destruct (p a); simpl.
  - split; discriminate.
  - destruct (findIndex p l); simpl in *; split; intros H;
      try discriminate; try (apply IH; assumption).
    destruct IH as [_ IH]. specialize (IH H). discriminate.
Qed.

Lemma findIndex_existsb {A : Type} (p : A -> bool) (l : list A) :
  existsb p l = true -> exists i, findIndex p l = Some i.
Proof.
  intros H. destruct (findIndex p l) as [i |] eqn:E; [eauto |].
  apply findIndex_None in E. congruence.
Qed.

Lemma foodAt_eq (x y : Z) (f : Food) : foodAt x y f = true <-> f = mkFood x y.
Proof.
  unfold foodAt. destruct f as [fx fy]; simpl.
  rewrite andb_true_iff, !Z.eqb_eq. split.
  - intros [-> ->]. reflexivity.
  - intros H. injection H as -> ->. split; reflexivity.
Qed.

(** ** The candidate moves of a blob *)

Lemma neighborMoves_spec (gridSize x y : Z) (mv : Dir) :
  In mv (neighborMoves gridSize x y) <->
  (-1 <= dx mv <= 1) /\ (-1 <= dy mv <= 1) /\ ~ (dx mv = 0 /\ dy mv = 0) /\
  0 <= x + dx mv < gridSize /\ 0 <= y + dy mv < gridSize.
Proof.
  unfold neighborMoves. rewrite in_flat_map. split.
  - intros [a [Ha Hin]]. apply in_flat_map in Hin. destruct Hin as [b [Hb Hin]].
    destruct ((a =? 0) && (b =? 0)) eqn:E0; [destruct Hin |].
    destruct ((x + a >=? 0) && (x + a <? gridSize) && (y + b >=? 0) && (y + b <? gridSize))
      eqn:Eb; [| destruct Hin].
    destruct Hin as [<- | []]; simpl.
    apply andb_false_iff in E0.
    rewrite !andb_true_iff in Eb. destruct Eb as [[[B1 B2] B3] B4].
    apply Z.geb_le in B1, B3. apply Z.ltb_lt in B2, B4.
    simpl in Ha, Hb.
    repeat split; lia.
  - intros (Hx & Hy & Hnz & Bx & By). destruct mv as [a b]; cbn [dx dy] in *.
    exists a. split; [simpl; lia |].
    apply in_flat_map. exists b. split; [simpl; lia |].
    destruct ((a =? 0) && (b =? 0)) eqn:E0.
    + apply andb_true_iff in E0. rewrite !Z.eqb_eq in E0. tauto.
    + replace ((x + a >=? 0) && (x + a <? gridSize) && (y + b >=? 0) && (y + b <? gridSize))
        with true; [left; reflexivity |].
      symmetry. rewrite !andb_true_iff. rewrite !Z.geb_le, !Z.ltb_lt. lia.
Qed.

Lemma inBounds_spec (gridSize x y : Z) :
  inBounds gridSize x y = true <-> 0 <= x < gridSize /\ 0 <= y < gridSize.
Proof.
  unfold inBounds. rewrite negb_true_iff, !orb_false_iff.
  rewrite !Z.ltb_ge, !Z.geb_leb, !Z.leb_gt. lia.
Qed.

(** A blob on a grid of side at least 2 always has a candidate move. *)
Lemma neighborMoves_nonempty (gridSize x y : Z) :
  2 <= gridSize -> inBounds gridSize x y = true -> neighborMoves gridSize x y <> [].
Proof.
  intros Hs Hb. apply inBounds_spec in Hb.
  assert (exists mv, In mv (neighborMoves gridSize x y)) as [mv Hmv].
  { destruct (Z_lt_dec (x + 1) gridSize).
    - exists (mkDir 1 0). apply neighborMoves_spec; simpl. lia.
    - exists (mkDir (-1) 0). apply neighborMoves_spec; simpl. lia. }
  intros E. rewrite E in Hmv. destruct Hmv.
Qed.

(** ** One blob of the tick *)

(** The three ways the callback returns: eat in place, move and eat on
    arrival, move without eating. *)
Lemma stepBlob_cases (gridSize : Z) (b : Blob) (fd : list Food) (g : Rng)
      (b' : Blob) (fd' : list Food) (g' : Rng) :
  stepBlob gridSize b fd g = Some (b', fd', g') ->
  (exists i, findIndex (foodAt (blobX b) (blobY b)) fd = Some i /\
             b' = mkBlob (blobX b) (blobY b) (Js.num 0) /\
             fd' = delete i fd /\ g' = g)
  \/
  (findIndex (foodAt (blobX b) (blobY b)) fd = None /\
   exists mv, In mv (neighborMoves gridSize (blobX b) (blobY b)) /\
     g' = skip 1 g /\
     ((exists i, findIndex (foodAt (blobX b + dx mv) (blobY b + dy mv)) fd = Some i /\
                 b' = mkBlob (blobX b + dx mv) (blobY b + dy mv) (Js.num 0) /\
                 fd' = delete i fd)
      \/
      (findIndex (foodAt (blobX b + dx mv) (blobY b + dy mv)) fd = None /\
       b' = mkBlob (blobX b + dx mv) (blobY b + dy mv) (Js.add1 (stepsSinceMeal b)) /\
       fd' = fd))).
Proof.
  unfold stepBlob. intros H.
  destruct (findIndex (foodAt (blobX b) (blobY b)) fd) as [i |] eqn:Ecur.
  - left. injection H as <- <- <-. exists i. repeat split; reflexivity.
  - right. split; [reflexivity |].
    set (nb := neighborMoves gridSize (blobX b) (blobY b)) in *.
    set (fn := List.filter _ nb) in *.
    assert (Hsel : exists l, (if 0 <? Z.of_nat (length fn) then pick fn g else pick nb g)
                             = pick l g /\ forall a, In a l -> In a nb).
    { destruct (0 <? Z.of_nat (length fn)).
      - exists fn. split; [reflexivity |]. intros a Ha.
        apply filter_In in Ha. tauto.
      - exists nb. split; [reflexivity | tauto]. }
    destruct Hsel as [l [Hsel Hl]]. rewrite Hsel in H. clear Hsel.
    pose proof (pick_rng l g) as Hg. pose proof (pick_elem l g) as He.
    destruct (pick l g) as [[mv |] g1]; simpl in *; [| discriminate].
    subst g1. exists mv. split; [apply Hl, list_elem_of_In, He; reflexivity |].
    destruct (findIndex (foodAt (blobX b + dx mv) (blobY b + dy mv)) fd) as [j |] eqn:Enew;
      injection H as <- <- <-; (split; [reflexivity |]).
    + left. exists j. repeat split; reflexivity.
    + right. repeat split; reflexivity.
Qed.

(** The callback returns for every blob that is on a grid of side at
    least 2. *)
Lemma stepBlob_total (gridSize : Z) (b : Blob) (fd : list Food) (g : Rng) :
  2 <= gridSize -> inBounds gridSize (blobX b) (blobY b) = true ->
  exists r, stepBlob gridSize b fd g = Some r.
Proof.
  intros Hs Hb. unfold stepBlob.
  destruct (findIndex (foodAt (blobX b) (blobY b)) fd) as [i |]; [eauto |].
  set (nb := neighborMoves gridSize (blobX b) (blobY b)).
  set (fn := List.filter _ nb).
  assert (Hne : nb <> []) by (apply neighborMoves_nonempty; assumption).
  assert (Hsel : exists l, (if 0 <? Z.of_nat (length fn) then pick fn g else pick nb g)
                           = pick l g /\ l <> []).
  { destruct (0 <? Z.of_nat (length fn)) eqn:E.
    - exists fn. split; [reflexivity |]. intros E0. rewrite E0 in E. discriminate.
    - exists nb. split; [reflexivity | assumption]. }
  destruct Hsel as [l [-> Hl]].
  destruct (pick_nonempty l g Hl) as [mv [Hmv _]].
  destruct (pick l g) as [c g1]; simpl in Hmv; subst c.
  destruct (findIndex _ fd); eauto.
Qed.

(** A step never moves a blob by more than one cell on either axis, and it
    leaves a blob that is on the grid on the grid. *)
Lemma stepBlob_near (gridSize : Z) (b : Blob) (fd : list Food) (g : Rng)
      (b' : Blob) (fd' : list Food) (g' : Rng) :
  stepBlob gridSize b fd g = Some (b', fd', g') ->
  Z.abs (blobX b' - blobX b) <= 1 /\ Z.abs (blobY b' - blobY b) <= 1 /\
  (inBounds gridSize (blobX b) (blobY b) = true ->
   inBounds gridSize (blobX b') (blobY b') = true).
Proof.
  intros H. apply stepBlob_cases in H.
  destruct H as [(i & _ & -> & _) | (_ & mv & Hmv & _ & Hcase)].
  - simpl. repeat split; try lia. tauto.
  - apply neighborMoves_spec in Hmv.
    assert (Hpos : blobX b' = blobX b + dx mv /\ blobY b' = blobY b + dy mv).
    { destruct Hcase as [(i & _ & -> & _) | (_ & -> & _)]; simpl; split; reflexivity. }
    destruct Hpos as [-> ->]. repeat split; try lia.
    intros _. apply inBounds_spec. lia.
Qed.

Lemma mapBlobs_app (gridSize : Z) (l1 l2 : list Blob) (fd : list Food) (g : Rng) :
  mapBlobs gridSize (l1 ++ l2) fd g =
  match mapBlobs gridSize l1 fd g with
  | None => None
  | Some (o1, f1, g1) =>
      match mapBlobs gridSize l2 f1 g1 with
      | None => None
      | Some (o2, f2, g2) => Some (o1 ++ o2, f2, g2)
      end
  end.
Proof.
  revert fd g. induction l1 as [| b l1 IH]; intros fd g; simpl.
  - destruct (mapBlobs gridSize l2 fd g) as [[[o2 f2] g2] |]; reflexivity.
  - destruct (stepBlob gridSize b fd g) as [[[b' f1] g1] |]; [| reflexivity].
    rewrite IH.
    destruct (mapBlobs gridSize l1 f1 g1) as [[[o1 f1'] g1'] |]; [| reflexivity].
    destruct (mapBlobs gridSize l2 f1' g1') as [[[o2 f2] g2] |]; reflexivity.
Qed.

Lemma mapBlobs_total (gridSize : Z) (bs : list Blob) (fd : list Food) (g : Rng) :
  2 <= gridSize ->
  Forall (fun b => inBounds gridSize (blobX b) (blobY b) = true) bs ->
  exists r, mapBlobs gridSize bs fd g = Some r.
Proof.
  intros Hs Hall. revert fd g.
  induction Hall as [| b bs Hb _ IH]; intros fd g; simpl; [eauto |].
  destruct (stepBlob_total gridSize b fd g Hs Hb) as [[[b' f1] g1] ->].
  destruct (IH f1 g1) as [[[o f2] g2] ->]. eauto.
Qed.

(** ** Food conservation *)

Lemma fedb_fed (b : Blob) : fedb b = true <-> fed b.
Proof.
  unfold fedb, fed. destruct (stepsSinceMeal b) as [| | n]; try (split; discriminate).
  destruct n; split; intros H; try discriminate; try reflexivity;
    injection H; discriminate.
Qed.

(** A step either leaves the food list alone and adds one to the counter,
    or removes the item under the blob's new cell and resets the counter. *)
Lemma stepBlob_food (gridSize : Z) (b : Blob) (fd : list Food) (g : Rng)
      (b' : Blob) (fd' : list Food) (g' : Rng) :
  stepBlob gridSize b fd g = Some (b', fd', g') ->
  (fd' = fd /\ stepsSinceMeal b' = Js.add1 (stepsSinceMeal b)) \/
  (fd ≡ₚ cellOf b' :: fd' /\ length fd = S (length fd') /\ fed b').
Proof.
  intros H. apply stepBlob_cases in H.
  assert (Hdel : forall x y i, findIndex (foodAt x y) fd = Some i ->
                 fd ≡ₚ mkFood x y :: delete i fd /\ length fd = S (length (delete i fd))).
  { intros x y i Hi. apply findIndex_Some in Hi. destruct Hi as [a [Ha Hp]].
    apply foodAt_eq in Hp. subst a. split.
    - apply delete_Permutation. assumption.
    - rewrite length_delete by (rewrite Ha; eauto).
      apply lookup_lt_Some in Ha. lia. }
  destruct H as [(i & Hi & -> & -> & _) | (_ & mv & _ & _ & [(i & Hi & -> & ->) | (_ & -> & ->)])].
  - right. destruct (Hdel _ _ _ Hi). repeat split; assumption.
  - right. destruct (Hdel _ _ _ Hi). repeat split; assumption.
  - left. split; reflexivity.
Qed.

Lemma mapBlobs_conservation (gridSize : Z) (bs : list Blob) (fd : list Food) (g : Rng)
      (out : list Blob) (fd' : list Food) (g' : Rng) :
  mapBlobs gridSize bs fd g = Some (out, fd', g') ->
  exists eaters, sublist eaters out /\ Forall fed eaters /\
                 fd ≡ₚ fd' ++ map cellOf eaters.
Proof.
  revert fd g out fd' g'.
  induction bs as [| b bs IH]; intros fd g out fd' g' H; simpl in H.
  - injection H as <- <- <-. exists []. split; [constructor |].
    split; [constructor |]. simpl. rewrite app_nil_r. reflexivity.
  - destruct (stepBlob gridSize b fd g) as [[[b1 f1] g1] |] eqn:Es; [| discriminate].
    destruct (mapBlobs gridSize bs f1 g1) as [[[o f2] g2] |] eqn:Em; [| discriminate].
    injection H as <- <- <-.
    destruct (IH _ _ _ _ _ Em) as (eaters & Hsub & Hfed & Hperm).
    destruct (stepBlob_food _ _ _ _ _ _ _ Es) as [[-> _] | (Hp & _ & Hf)].
    + exists eaters. split; [apply sublist_cons; assumption |].
      split; assumption.
    + exists (b1 :: eaters). split; [apply sublist_skip; assumption |].
      split; [constructor; assumption |].
      rewrite Hp, Hperm. simpl. apply Permutation_middle.
Qed.

Lemma mapBlobs_length (gridSize : Z) (bs : list Blob) (fd : list Food) (g : Rng)
      (out : list Blob) (fd' : list Food) (g' : Rng) :
  mapBlobs gridSize bs fd g = Some (out, fd', g') ->
  (length fd' <= length fd)%nat /\ length out = length bs.
Proof.
  revert fd g out fd' g'.
  induction bs as [| b bs IH]; intros fd g out fd' g' H; simpl in H.
  - injection H as <- <- <-. split; reflexivity.
  - destruct (stepBlob gridSize b fd g) as [[[b1 f1] g1] |] eqn:Es; [| discriminate].
    destruct (mapBlobs gridSize bs f1 g1) as [[[o f2] g2] |] eqn:Em; [| discriminate].
    injection H as <- <- <-.
    destruct (IH _ _ _ _ _ Em) as [Hl Ho].
    destruct (stepBlob_food _ _ _ _ _ _ _ Es) as [[-> _] | (_ & Hlen & _)];
      simpl; lia.
Qed.

Lemma sublist_filter_keep {A : Type} (p : A -> bool) (l1 l2 : list A) :
  sublist l1 l2 -> Forall (fun a => p a = true) l1 -> sublist l1 (List.filter p l2).
Proof.
  induction 1 as [| x l1 l2 _ IH | x l1 l2 _ IH]; intros Hall; simpl.
  - constructor.
  - inversion Hall as [| ? ? Hx Hrest]; subst. rewrite Hx.
    apply sublist_skip, IH, Hrest.
  - destruct (p x); [apply sublist_cons |]; apply IH, Hall.
Qed.

Lemma fed_survives (b : Blob) : fed b -> survives b = true.
Proof. unfold fed, survives. intros ->. reflexivity. Qed.

(** ** Movement *)

Lemma mapBlobs_near (gridSize : Z) (bs : list Blob) (fd : list Food) (g : Rng)
      (out : list Blob) (fd' : list Food) (g' : Rng) :
  mapBlobs gridSize bs fd g = Some (out, fd', g') ->
  Forall2 (near gridSize) bs out.
Proof.
  revert fd g out fd' g'.
  induction bs as [| b bs IH]; intros fd g out fd' g' H; simpl in H.
  - injection H as <- <- <-. constructor.
  - destruct (stepBlob gridSize b fd g) as [[[b1 f1] g1] |] eqn:Es; [| discriminate].
    destruct (mapBlobs gridSize bs f1 g1) as [[[o f2] g2] |] eqn:Em; [| discriminate].
    injection H as <- <- <-. constructor.
    + apply stepBlob_near in Es. exact Es.
    + eapply IH; eassumption.
Qed.

Lemma fedb_filter_survives (l : list Blob) :
  List.filter fedb (List.filter survives l) = List.filter fedb l.
Proof.
  induction l as [| b l IH]; simpl; [reflexivity |].
  destruct (fedb b) eqn:Ef.
  - rewrite (fed_survives b) by (apply fedb_fed; assumption).
    simpl. rewrite Ef, IH. reflexivity.
  - destruct (survives b); simpl; [rewrite Ef |]; apply IH.
Qed.

Lemma add1_not_fed (v : Js.value) : v <> Js.num (-1) -> Js.add1 v <> Js.num 0.
Proof.
  destruct v as [| | n]; simpl; try discriminate.
  intros Hn E. injection E as E. apply Hn. f_equal. lia.
Qed.

(** When no counter is [-1] before the tick, the blobs with counter 0
    after the map are exactly those that ate. *)
Lemma mapBlobs_count (gridSize : Z) (bs : list Blob) (fd : list Food) (g : Rng)
      (out : list Blob) (fd' : list Food) (g' : Rng) :
  Forall (fun b => stepsSinceMeal b <> Js.num (-1)) bs ->
  mapBlobs gridSize bs fd g = Some (out, fd', g') ->
  length fd = (length fd' + length (List.filter fedb out))%nat.
Proof.
  intros Hall. revert fd g out fd' g'.
  induction Hall as [| b bs Hb _ IH]; intros fd g out fd' g' H; simpl in H.
  - injection H as <- <- <-. simpl. lia.
  - destruct (stepBlob gridSize b fd g) as [[[b1 f1] g1] |] eqn:Es; [| discriminate].
    destruct (mapBlobs gridSize bs f1 g1) as [[[o f2] g2] |] eqn:Em; [| discriminate].
    injection H as <- <- <-. specialize (IH _ _ _ _ _ Em). simpl.
    destruct (stepBlob_food _ _ _ _ _ _ _ Es) as [[-> Hs] | (_ & Hlen & Hf)].
    + destruct (fedb b1) eqn:Ef; [| assumption].
      apply fedb_fed in Ef. unfold fed in Ef. rewrite Hs in Ef.
      apply add1_not_fed in Hb. contradiction.
    + apply fedb_fed in Hf. rewrite Hf. simpl. lia.
Qed.

(** A blob standing on food eats it where it stands. *)
Lemma stepBlob_on_food (gridSize : Z) (b : Blob) (fd : list Food) (g : Rng) :
  cellOf b ∈ fd ->
  exists i,
    fd !! i = Some (cellOf b) /\
    stepBlob gridSize b fd g =
      Some (mkBlob (blobX b) (blobY b) (Js.num 0), delete i fd, g).
Proof.
  intros Hin.
  assert (He : existsb (foodAt (blobX b) (blobY b)) fd = true).
  { apply existsb_exists. exists (cellOf b). split.
    - apply list_elem_of_In. assumption.
    - apply foodAt_eq. reflexivity. }
  destruct (findIndex_existsb _ _ He) as [i Hi].
  exists i. destruct (findIndex_Some _ _ _ Hi) as [a [Ha Hp]].
  apply foodAt_eq in Hp. subst a.
  split; [exact Ha |]. unfold stepBlob. rewrite Hi. reflexivity.
Qed.

(** * The claims about the tick *)

(** C8 (eat in place).  When the blobs before [b] in the sequence have been
    processed and left the food list [fd1], and [fd1] holds an item at the
    coordinate of [b], then the callback removes one such item (the first,
    at index [i]), emits the blob at the same coordinate with
    [stepsSinceMeal = 0] and draws nothing from the random source (no move
    is made); the rest of the sequence goes on from the shortened list. *)
Theorem eat_in_place (gridSize : Z) (pre post : list Blob) (b : Blob)
        (fd : list Food) (g : Rng) (out1 : list Blob) (fd1 : list Food) (g1 : Rng) :
  mapBlobs gridSize pre fd g = Some (out1, fd1, g1) ->
  cellOf b ∈ fd1 ->
  exists i,
    fd1 !! i = Some (cellOf b) /\
    stepBlob gridSize b fd1 g1 =
      Some (mkBlob (blobX b) (blobY b) (Js.num 0), delete i fd1, g1) /\
    mapBlobs gridSize (pre ++ b :: post) fd g =
      match mapBlobs gridSize post (delete i fd1) g1 with
      | Some (out2, fd2, g2) =>
          Some (out1 ++ mkBlob (blobX b) (blobY b) (Js.num 0) :: out2, fd2, g2)
      | None => None
      end.
Proof.
  intros Hpre Hin.
  destruct (stepBlob_on_food gridSize b fd1 g1 Hin) as (i & Ha & Hstep).
  exists i. split; [exact Ha |]. split; [exact Hstep |].
  rewrite mapBlobs_app, Hpre. simpl. rewrite Hstep.
  destruct (mapBlobs gridSize post (delete i fd1) g1) as [[[o2 f2] g2] |]; reflexivity.
Qed.

(** C9 (movement bound, staying on the grid).  Whatever the callback
    returns for a blob is at most one cell away on each axis and is on the
    grid if the blob was; the coordinate is unchanged when the blob eats in
    place; the callback does return for a blob on a grid of side at least 2;
    and the blobs of the state after a tick are the survivors of a list that
    is, blob by blob, near the blobs before the tick. *)
Theorem movement_bound (gridSize : Z) :
  (forall b fd g b' fd' g',
      stepBlob gridSize b fd g = Some (b', fd', g') ->
      near gridSize b b' /\
      (cellOf b ∈ fd -> blobX b' = blobX b /\ blobY b' = blobY b)) /\
  (forall b fd g,
      2 <= gridSize -> onGrid gridSize b -> is_Some (stepBlob gridSize b fd g)) /\
  (forall st g st' g',
      advance gridSize st g = Some (st', g') ->
      exists mapped,
        Forall2 (near gridSize) (blobs st) mapped /\
        blobs st' = List.filter survives mapped /\
        (Forall (onGrid gridSize) (blobs st) -> Forall (onGrid gridSize) (blobs st'))).
Proof.
  split; [| split].
  - intros b fd g b' fd' g' H. split; [apply (stepBlob_near _ _ _ _ _ _ _ H) |].
    intros Hin.
    destruct (stepBlob_on_food gridSize b fd g Hin) as (i & _ & Hs).
    rewrite Hs in H. injection H as <- _ _. split; reflexivity.
  - intros b fd g Hs Hb.
    destruct (stepBlob_total gridSize b fd g Hs Hb) as [r ->]. eauto.
  - intros st g st' g' H. unfold advance in H.
    destruct (mapBlobs gridSize (blobs st) (food st) g) as [[[mapped fd'] g1] |] eqn:Em;
      [| discriminate].
    injection H as <- <-. exists mapped.
    pose proof (mapBlobs_near _ _ _ _ _ _ _ Em) as Hn.
    split; [exact Hn |]. split; [reflexivity |].
    intros Hall. simpl. apply Forall_forall. intros b' Hb'.
    apply list_elem_of_In, filter_In in Hb'. destruct Hb' as [Hb' _].
    apply list_elem_of_In in Hb'.
    clear Em. induction Hn as [| b c bs cs Hbc _ IH].
    + inversion Hb'.
    + inversion Hall as [| ? ? Hb Hbs]; subst.
      apply elem_of_cons in Hb'. destruct Hb' as [-> | Hb'].
      * apply Hbc, Hb.
      * apply IH; assumption.
Qed.

(** * Seeding *)

Lemma isSoilAt_onSoil (grid : Grid) (x y : Z) :
  isSoilAt grid x y = Some true -> onSoil grid x y.
Proof.
  unfold isSoilAt, onSoil, gridAt.
  destruct (grid !! Z.to_nat y) as [row |]; [| discriminate].
  destruct (row !! Z.to_nat x) as [[[] |] |]; intros H; try discriminate.
  reflexivity.
Qed.

Lemma isSoilAt_total (grid : Grid) (x y : Z) :
  (Z.to_nat y < length grid)%nat -> exists c, isSoilAt grid x y = Some c.
Proof.
  intros Hy. unfold isSoilAt.
  destruct (lookup_lt_is_Some_2 grid (Z.to_nat y) Hy) as [row ->]. eauto.
Qed.

Lemma existsb_blobAt (x y : Z) (bs : list Blob) :
  existsb (blobAt x y) bs = existsb (foodAt x y) (map cellOf bs).
Proof. induction bs as [| b bs IH]; simpl; [reflexivity |]. rewrite IH. reflexivity. Qed.

Lemma existsb_foodAt_false (x y : Z) (fd : list Food) :
  existsb (foodAt x y) fd = false -> mkFood x y ∉ fd.
Proof.
  intros H Hin. apply list_elem_of_In in Hin.
  assert (existsb (foodAt x y) fd = true); [| congruence].
  apply existsb_exists. exists (mkFood x y). split; [assumption |].
  apply foodAt_eq. reflexivity.
Qed.

(** One more accepted position keeps the loop invariant. *)
Lemma seeded_push (gridSize : Z) (grid : Grid) (bs : list Blob) (x y : Z) :
  seeded gridSize grid bs ->
  (length bs < initialBlobCount)%nat ->
  0 <= x < gridSize -> 0 <= y < gridSize ->
  isSoilAt grid x y = Some true ->
  existsb (blobAt x y) bs = false ->
  seeded gridSize grid (bs ++ [mkBlob x y Js.undefined]).
Proof.
  intros (Hall & Hnd & Hlen) Hlt Hx Hy Hsoil Hnew. repeat split.
  - apply Forall_app. split; [assumption |]. constructor; [| constructor].
    simpl. repeat split.
    + apply isSoilAt_onSoil. assumption.
    + unfold onGrid; simpl. apply inBounds_spec. lia.
  - rewrite map_app. simpl. apply NoDup_app. split; [assumption |]. split.
    + intros f Hf Hin. apply list_elem_of_singleton in Hin. subst f.
      rewrite existsb_blobAt in Hnew.
      apply existsb_foodAt_false in Hnew. contradiction.
    + apply NoDup_singleton.
  - rewrite length_app. simpl. lia.
Qed.

(** The loop of [generateBlobs] returns, within [maxAttempts] turns; its
    result satisfies the invariant, and it stops short of the requested
    count only when the attempts are used up.  Each turn draws twice. *)
Lemma blobLoop_spec (gridSize : Z) (grid : Grid) :
  0 < gridSize -> (Z.to_nat gridSize <= length grid)%nat ->
  forall (fuel : nat) (bs : list Blob) (att : Z) (g : Rng),
    0 <= att <= maxAttempts ->
    (Z.to_nat (maxAttempts - att) < fuel)%nat ->
    seeded gridSize grid bs ->
    exists bs' att',
      blobLoop gridSize fuel grid bs att g =
        Some (bs', att', skip (Z.to_N (2 * (att' - att))) g) /\
      seeded gridSize grid bs' /\
      att <= att' <= maxAttempts /\
      (length bs' = initialBlobCount \/ att' = maxAttempts).
Proof.
  intros Hpos Hrows fuel.
  induction fuel as [| fuel IH]; intros bs att g Hatt Hfuel Hinv; [lia |].
  cbn [blobLoop].
  destruct ((length bs <? initialBlobCount)%nat && (att <? maxAttempts)) eqn:Econd.
  - apply andb_true_iff in Econd. destruct Econd as [Eb Ea].
    apply Nat.ltb_lt in Eb. apply Z.ltb_lt in Ea.
    pose proof (randomBelow_range gridSize g Hpos) as Hx.
    pose proof (randomBelow_rng gridSize g) as Hg1.
    destruct (randomBelow gridSize g) as [x g1]; simpl in Hx, Hg1. subst g1.
    pose proof (randomBelow_range gridSize (skip 1 g) Hpos) as Hy.
    pose proof (randomBelow_rng gridSize (skip 1 g)) as Hg2.
    destruct (randomBelow gridSize (skip 1 g)) as [y g2]; simpl in Hy, Hg2. subst g2.
    rewrite skip_skip.
    destruct (isSoilAt_total grid x y) as [c Hc]; [lia |]. rewrite Hc.
    set (bs1 := if c && negb (existsb (blobAt x y) bs)
                then bs ++ [mkBlob x y Js.undefined] else bs).
    assert (Hinv1 : seeded gridSize grid bs1).
    { unfold bs1. destruct (c && negb (existsb (blobAt x y) bs)) eqn:Ec; [| assumption].
      apply andb_true_iff in Ec. destruct Ec as [-> En].
      apply negb_true_iff in En. apply seeded_push; assumption. }
    destruct (IH bs1 (att + 1) (skip (1 + 1) g)) as (bs' & att' & Hrun & Hinv' & Hatt' & Hstop);
      [lia | lia | assumption |].
    exists bs', att'. rewrite Hrun, skip_skip.
    split; [do 2 f_equal; f_equal; lia |].
    split; [assumption |]. split; [lia | assumption].
  - exists bs, att. replace (2 * (att - att)) with 0 by lia. simpl. rewrite skip_0.
    split; [reflexivity |]. split; [assumption |]. split; [lia |].
    apply andb_false_iff in Econd. destruct Hinv as (_ & _ & Hlen).
    destruct Econd as [E | E].
    + apply Nat.ltb_ge in E. left. lia.
    + apply Z.ltb_ge in E. right. lia.
Qed.

(** The two seeding loops are the same loop: [generateFood] collects the
    cells of the blobs [generateBlobs] would collect from the same draws. *)
Lemma foodLoop_blobLoop (gridSize : Z) (grid : Grid) (fuel : nat) :
  forall (bs : list Blob) (att : Z) (g : Rng),
    foodLoop gridSize fuel grid (map cellOf bs) att g =
    match blobLoop gridSize fuel grid bs att g with
    | Some (bs', att', g') => Some (map cellOf bs', att', g')
    | None => None
    end.
Proof.
  induction fuel as [| fuel IH]; intros bs att g; cbn [foodLoop blobLoop]; [reflexivity |].
  rewrite length_map. unfold initialFoodCount, initialBlobCount.
  destruct ((length bs <? 100)%nat && (att <? maxAttempts)); [| reflexivity].
  destruct (randomBelow gridSize g) as [x g1].
  destruct (randomBelow gridSize g1) as [y g2].
  destruct (isSoilAt grid x y) as [c |]; [| reflexivity].
  rewrite <- existsb_blobAt, <- IH. f_equal.
  destruct (c && negb (existsb (blobAt x y) bs)); [| reflexivity].
  rewrite map_app. reflexivity.
Qed.

Lemma seeded_nil (gridSize : Z) (grid : Grid) : seeded gridSize grid [].
Proof.
  unfold seeded, initialBlobCount. repeat split.
  - constructor.
  - constructor.
  - cbn [length]. lia.
Qed.

(** [generateBlobs] returns for a grid that has its [gridSize] rows. *)
Lemma generateBlobs_spec (gridSize : Z) (grid : Grid) (fuel : nat) (g : Rng) :
  0 < gridSize -> (Z.to_nat gridSize <= length grid)%nat ->
  (Z.to_nat maxAttempts < fuel)%nat ->
  exists bs att,
    blobLoop gridSize fuel grid [] 0 g = Some (bs, att, skip (Z.to_N (2 * att)) g) /\
    seeded gridSize grid bs /\
    0 <= att <= maxAttempts /\
    (length bs = initialBlobCount \/ att = maxAttempts).
Proof.
  intros Hpos Hrows Hfuel.
  destruct (blobLoop_spec gridSize grid Hpos Hrows fuel [] 0 g)
    as (bs & att & Hrun & Hinv & Hatt & Hstop).
  - unfold maxAttempts. lia.
  - rewrite Z.sub_0_r. assumption.
  - apply seeded_nil.
  - exists bs, att. rewrite Z.sub_0_r in Hrun.
    split; [exact Hrun |]. split; [exact Hinv |]. split; [lia | exact Hstop].
Qed.

(** * The claims about seeding *)


(** * The claims about hunger *)

(** A blob whose counter is absent either eats or comes out with [NaN]. *)
Lemma stepBlob_absent (gridSize : Z) (b : Blob) (fd : list Food) (g : Rng)
      (b' : Blob) (fd' : list Food) (g' : Rng) :
  stepsSinceMeal b = Js.undefined ->
  stepBlob gridSize b fd g = Some (b', fd', g') ->
  (fed b' /\ length fd = S (length fd')) \/
  (stepsSinceMeal b' = Js.NaN /\ fd' = fd).
Proof.
  intros Hb H.
  destruct (stepBlob_food _ _ _ _ _ _ _ H) as [[-> Hs] | (_ & Hlen & Hf)].
  - right. rewrite Hs, Hb. split; reflexivity.
  - left. split; assumption.
Qed.

Lemma mapBlobs_absent (gridSize : Z) (bs : list Blob) (fd : list Food) (g : Rng)
      (out : list Blob) (fd' : list Food) (g' : Rng) :
  Forall (fun b => stepsSinceMeal b = Js.undefined) bs ->
  mapBlobs gridSize bs fd g = Some (out, fd', g') ->
  Forall (fun b => fed b \/ stepsSinceMeal b = Js.NaN) out.
Proof.
  intros Hall. revert fd g out fd' g'.
  induction Hall as [| b bs Hb _ IH]; intros fd g out fd' g' H; simpl in H.
  - injection H as <- <- <-. constructor.
  - destruct (stepBlob gridSize b fd g) as [[[b1 f1] g1] |] eqn:Es; [| discriminate].
    destruct (mapBlobs gridSize bs f1 g1) as [[[o f2] g2] |] eqn:Em; [| discriminate].
    injection H as <- <- <-. constructor; [| eapply IH; eassumption].
    destruct (stepBlob_absent _ _ _ _ _ _ _ Hb Es) as [[Hf _] | [Hn _]]; tauto.
Qed.

Lemma filter_fedb_all (l : list Blob) : Forall fed l -> List.filter fedb l = l.
Proof.
  induction 1 as [| b l Hb _ IH]; simpl; [reflexivity |].
  apply fedb_fed in Hb. rewrite Hb, IH. reflexivity.
Qed.

Lemma advance_total (gridSize : Z) (st : SimState) (g : Rng) :
  2 <= gridSize -> Forall (onGrid gridSize) (blobs st) ->
  exists st' g', advance gridSize st g = Some (st', g').
Proof.
  intros Hs Hall. unfold advance.
  destruct (mapBlobs_total gridSize (blobs st) (food st) g Hs Hall) as [[[o f] g'] ->].
  eauto.
Qed.

(** C4 (tick conservation).  Whenever the tick returns, the food list is no
    longer than before, and the items that went are matched one for one by
    blobs of the new state that stand on the item's cell with
    [stepsSinceMeal = 0]: the old food list is a rearrangement of the new
    one followed by the cells of those blobs.  If no counter was [-1]
    before, those blobs are all the blobs with counter 0.  The tick does
    return when every blob is on a grid of side at least 2. *)
Theorem tick_conservation (gridSize : Z) (st : SimState) (g : Rng) :
  (forall st' g',
      advance gridSize st g = Some (st', g') ->
      (length (food st') <= length (food st))%nat /\
      (exists eaters,
          sublist eaters (blobs st') /\ Forall fed eaters /\
          food st ≡ₚ food st' ++ map cellOf eaters) /\
      (Forall (fun b => stepsSinceMeal b <> Js.num (-1)) (blobs st) ->
       length (food st) =
       (length (food st') + length (List.filter fedb (blobs st')))%nat)) /\
  (2 <= gridSize -> Forall (onGrid gridSize) (blobs st) ->
   is_Some (advance gridSize st g)).
Proof.
  split.
  - intros st' g' H. unfold advance in H.
    destruct (mapBlobs gridSize (blobs st) (food st) g) as [[[mapped fd'] g1] |] eqn:Em;
      [| discriminate].
    injection H as <- <-. simpl.
    split; [apply (mapBlobs_length _ _ _ _ _ _ _ Em) |]. split.
    + destruct (mapBlobs_conservation _ _ _ _ _ _ _ Em) as (eaters & Hsub & Hfed & Hperm).
      exists eaters. split; [| split; assumption].
      apply sublist_filter_keep; [assumption |].
      eapply Forall_impl; [exact Hfed |]. apply fed_survives.
    + intros Hall. rewrite fedb_filter_survives.
      eapply mapBlobs_count; eassumption.
  - intros Hs Hall. destruct (advance_total gridSize st g Hs Hall) as (st' & g' & ->).
    eauto.
Qed.

(** C2 (the first tick).  From the state built by seeding, on a grid of
    side at least 2 that has its rows, the first tick returns and every blob
    it keeps has [stepsSinceMeal = 0]: the seeded blobs have no such
    property, so a blob that does not eat gets [NaN] and fails the filter.
    The blobs kept are as many as the food items eaten. *)
Theorem first_tick_keeps_only_eaters (gridSize : Z) (grid : Grid) (fuel : nat) (g : Rng) :
  2 <= gridSize -> (Z.to_nat gridSize <= length grid)%nat ->
  (Z.to_nat maxAttempts < fuel)%nat ->
  exists st g1 st' g2,
    initialState gridSize fuel grid g = Some (st, g1) /\
    Forall (fun b => stepsSinceMeal b = Js.undefined) (blobs st) /\
    advance gridSize st g1 = Some (st', g2) /\
    Forall fed (blobs st') /\
    (length (blobs st') + length (food st') = length (food st))%nat.
Proof.
  intros Hs Hrows Hfuel.
  assert (Hpos : 0 < gridSize) by lia.
  destruct (generateBlobs_spec gridSize grid fuel g Hpos Hrows Hfuel)
    as (fbs & fatt & Hfrun & _).
  pose proof (foodLoop_blobLoop gridSize grid fuel [] 0 g) as Hf.
  simpl map in Hf. rewrite Hfrun in Hf.
  set (g1 := skip (Z.to_N (2 * fatt)) g) in *.
  destruct (generateBlobs_spec gridSize grid fuel g1 Hpos Hrows Hfuel)
    as (bs & att & Hrun & (Hall & _ & _) & _).
  set (g2 := skip (Z.to_N (2 * att)) g1) in *.
  set (st := mkSim (map cellOf fbs) bs).
  assert (Hgrid : Forall (onGrid gridSize) (blobs st)).
  { simpl. eapply Forall_impl; [exact Hall |]. simpl. tauto. }
  assert (Habs : Forall (fun b => stepsSinceMeal b = Js.undefined) (blobs st)).
  { simpl. eapply Forall_impl; [exact Hall |]. simpl. tauto. }
  destruct (advance_total gridSize st g2 Hs Hgrid) as (st' & g3 & Hadv).
  exists st, g2, st', g3.
  split; [unfold initialState, generateFood, generateBlobs; rewrite Hf, Hrun; reflexivity |].
  split; [exact Habs |]. split; [exact Hadv |].
  unfold advance in Hadv.
  destruct (mapBlobs gridSize (blobs st) (food st) g2) as [[[mapped fd'] g'] |] eqn:Em;
    [| discriminate].
  injection Hadv as <- <-. simpl blobs at 1 2. simpl food at 1.
  assert (Hfed : Forall fed (List.filter survives mapped)).
  { pose proof (mapBlobs_absent _ _ _ _ _ _ _ Habs Em) as Hout.
    apply Forall_forall. intros b Hb.
    apply list_elem_of_In, filter_In in Hb. destruct Hb as [Hb Hsv].
    apply list_elem_of_In in Hb.
    rewrite Forall_forall in Hout. destruct (Hout b Hb) as [Hf0 | Hn]; [assumption |].
    unfold survives in Hsv. rewrite Hn in Hsv. discriminate. }
  split; [exact Hfed |].
  assert (Hm1 : Forall (fun b => stepsSinceMeal b <> Js.num (-1)) (blobs st)).
  { eapply Forall_impl; [exact Habs |]. simpl. intros b ->. discriminate. }
  pose proof (mapBlobs_count _ _ _ _ _ _ _ Hm1 Em) as Hc.
  rewrite <- (fedb_filter_survives mapped), (filter_fedb_all _ Hfed) in Hc.
  lia.
Qed.

(** * Terrain generation *)

(** ** Reading and writing cells *)

Lemma wfGrid_row {A : Type} (n : nat) (grid : list (list A)) (j : nat) (row : list A) :
  wfGrid n grid -> grid !! j = Some row -> length row = n.
Proof.
  intros [_ Hrows] Hj. rewrite Forall_forall in Hrows.
  apply Hrows. eapply list_elem_of_lookup_2. exact Hj.
Qed.

Lemma wfGrid_gridSet {A : Type} (n : nat) (grid : list (list A)) (x y : Z) (v : A) :
  wfGrid n grid -> wfGrid n (gridSet grid x y v).
Proof.
  intros [Hlen Hrows]. unfold gridSet. split.
  - rewrite length_alter. exact Hlen.
  - apply Forall_forall. intros row Hrow.
    apply list_elem_of_lookup_1 in Hrow. destruct Hrow as [j Hj].
    destruct (decide (Z.to_nat y = j)) as [<- | Hne].
    + rewrite list_lookup_alter_eq in Hj.
      destruct (grid !! Z.to_nat y) as [row0 |] eqn:E; simpl in Hj; [| discriminate].
      injection Hj as <-. rewrite length_insert.
      eapply wfGrid_row; [split; eassumption | exact E].
    + rewrite list_lookup_alter_ne in Hj by assumption.
      eapply wfGrid_row; [split; eassumption | exact Hj].
Qed.

Lemma gridAt_gridSet_same (n : nat) (grid : Grid) (x y : Z) (t : Terrain) :
  wfGrid n grid -> (Z.to_nat x < n)%nat -> (Z.to_nat y < n)%nat ->
  gridAt (gridSet grid x y (Some t)) x y = Some t.
Proof.
  intros Hwf Hx Hy. unfold gridAt, gridSet.
  rewrite list_lookup_alter_eq.
  destruct (lookup_lt_is_Some_2 grid (Z.to_nat y)) as [row Hrow];
    [destruct Hwf as [-> _]; exact Hy |].
  rewrite Hrow. simpl.
  rewrite list_lookup_insert_eq; [reflexivity |].
  rewrite (wfGrid_row n grid _ row Hwf Hrow). exact Hx.
Qed.

Lemma gridAt_gridSet_other (grid : Grid) (x y x' y' : Z) (v : option Terrain) :
  Z.to_nat x <> Z.to_nat x' \/ Z.to_nat y <> Z.to_nat y' ->
  gridAt (gridSet grid x y v) x' y' = gridAt grid x' y'.
Proof.
  intros Hne. unfold gridAt, gridSet.
  destruct (decide (Z.to_nat y = Z.to_nat y')) as [Ey | Ny].
  - rewrite <- Ey. rewrite list_lookup_alter_eq.
    destruct (grid !! Z.to_nat y) as [row |]; simpl; [| reflexivity].
    rewrite list_lookup_insert_ne; [reflexivity |].
    destruct Hne as [Hx | Hy]; [exact Hx | contradiction].
  - rewrite list_lookup_alter_ne by assumption. reflexivity.
Qed.

Lemma holesRow_insert (row : list (option Terrain)) (i : nat) (t : Terrain) :
  row !! i = Some None ->
  S (holesRow (<[i := Some t]> row)) = holesRow row.
Proof.
  unfold holesRow. revert i. induction row as [| c row IH]; intros i Hi.
  - discriminate.
  - destruct i as [| i]; simpl in *.
    + injection Hi as ->. reflexivity.
    + destruct (isHole c); simpl; rewrite <- (IH i Hi); reflexivity.
Qed.

Lemma holes_gridSet (grid : Grid) (x y : Z) (t : Terrain) (row : list (option Terrain)) :
  grid !! Z.to_nat y = Some row -> row !! Z.to_nat x = Some None ->
  S (holes (gridSet grid x y (Some t))) = holes grid.
Proof.
  unfold gridSet. generalize (Z.to_nat y) as j. intros j. revert j.
  induction grid as [| r grid IH]; intros j Hj Hx.
  - discriminate.
  - destruct j as [| j]; simpl in *.
    + injection Hj as ->. rewrite <- (holesRow_insert row _ t Hx). reflexivity.
    + specialize (IH j Hj Hx). unfold alter in IH. lia.
Qed.

Lemma gridAt_None_lookup (n : nat) (grid : Grid) (x y : Z) :
  wfGrid n grid -> (Z.to_nat x < n)%nat -> (Z.to_nat y < n)%nat ->
  gridAt grid x y = None ->
  exists row, grid !! Z.to_nat y = Some row /\ row !! Z.to_nat x = Some None.
Proof.
  intros Hwf Hx Hy H. unfold gridAt in H.
  destruct (lookup_lt_is_Some_2 grid (Z.to_nat y)) as [row Hrow];
    [destruct Hwf as [-> _]; exact Hy |].
  rewrite Hrow in H. exists row. split; [exact Hrow |].
  destruct (lookup_lt_is_Some_2 row (Z.to_nat x)) as [c Hc].
  { rewrite (wfGrid_row n grid _ row Hwf Hrow). exact Hx. }
  rewrite Hc in H. subst c. exact Hc.
Qed.

Lemma inBounds_nat (gridSize x y : Z) :
  inBounds gridSize x y = true ->
  0 <= x /\ 0 <= y /\
  (Z.to_nat x < Z.to_nat gridSize)%nat /\ (Z.to_nat y < Z.to_nat gridSize)%nat.
Proof. intros H. apply inBounds_spec in H. lia. Qed.

(** ** The inner loop *)

Lemma grows_refl (gridSize : Z) (st : GenState) :
  wfGrid (Z.to_nat gridSize) (genGrid st) -> grows gridSize st st.
Proof.
  intros Hwf. unfold grows. split; [exact Hwf |].
  split; [tauto |]. split; [tauto |]. split; [tauto |]. split; reflexivity.
Qed.

Lemma grows_trans (gridSize : Z) (a b c : GenState) :
  grows gridSize a b -> grows gridSize b c -> grows gridSize a c.
Proof.
  intros (_ & Hmono1 & Hnew1 & Hfr1 & Hm1 & Hd1) (Hwf & Hmono2 & Hnew2 & Hfr2 & Hm2 & Hd2).
  split; [exact Hwf |]. split; [| split; [| split; [| split]]].
  - intros x y Hb Ha. apply Hmono2, Hmono1; assumption.
  - intros x y Hb Ha. destruct (Hnew2 x y Hb Ha) as [Hab | Hin]; [| right; exact Hin].
    destruct (Hnew1 x y Hb Hab) as [Haa | (cl & Hcl & Hxy)]; [left; exact Haa |].
    right. exists cl. split; [apply Hfr2; exact Hcl | exact Hxy].
  - intros cl Hcl. apply Hfr2, Hfr1, Hcl.
  - lia.
  - congruence.
Qed.

(** Assigning a [null] cell of the grid and pushing it on the frontier. *)
Lemma assign_grows (gridSize : Z) (st : GenState) (nx ny : Z) (t : Terrain) (c : Z) (g' : Rng) :
  wfGrid (Z.to_nat gridSize) (genGrid st) ->
  inBounds gridSize nx ny = true ->
  gridAt (genGrid st) nx ny = None ->
  let st1 := mkGen (gridSet (genGrid st) nx ny (Some t))
                   (gridSet (genChain st) nx ny c)
                   (genFrontier st ++ [mkCell nx ny t c])
                   (genDirections st) g' in
  grows gridSize st st1 /\ assigned (genGrid st1) nx ny.
Proof.
  intros Hwf Hb Hnone st1.
  destruct (inBounds_nat _ _ _ Hb) as (Hx0 & Hy0 & Hxn & Hyn).
  assert (Hsame : gridAt (genGrid st1) nx ny = Some t).
  { simpl. eapply gridAt_gridSet_same; eassumption. }
  assert (Hother : forall x y, inBounds gridSize x y = true -> (x <> nx \/ y <> ny) ->
                               gridAt (genGrid st1) x y = gridAt (genGrid st) x y).
  { intros x y Hxy Hne. simpl. apply gridAt_gridSet_other.
    destruct (inBounds_nat _ _ _ Hxy) as (Hx1 & Hy1 & _ & _). lia. }
  split; [| unfold assigned; rewrite Hsame; discriminate].
  split; [simpl; apply wfGrid_gridSet; exact Hwf |].
  split; [| split; [| split; [| split]]].
  - intros x y Hxy Ha. unfold assigned in *.
    destruct (decide (x = nx /\ y = ny)) as [[-> ->] | Hne].
    + rewrite Hsame. discriminate.
    + rewrite Hother by (assumption || lia). exact Ha.
  - intros x y Hxy Ha. unfold assigned in *.
    destruct (decide (x = nx /\ y = ny)) as [[-> ->] | Hne].
    + right. exists (mkCell nx ny t c). simpl. split; [| split; reflexivity].
      apply elem_of_app. right. apply list_elem_of_singleton. reflexivity.
    + left. rewrite Hother in Ha by (assumption || lia). exact Ha.
  - intros cl Hcl. simpl. apply elem_of_app. left. exact Hcl.
  - simpl. rewrite length_app. simpl.
    destruct (gridAt_None_lookup _ _ _ _ Hwf Hxn Hyn Hnone) as (row & Hrow & Hcell).
    pose proof (holes_gridSet (genGrid st) nx ny t row Hrow Hcell). lia.
  - reflexivity.
Qed.

(** After the inner loop over the directions [ds], every neighbour of the
    expanded cell in one of these directions is assigned. *)
Lemma expandNeighbors_grows (gridSize : Z) (ds : list Dir) (x y : Z)
      (type : Terrain) (chain : Z) :
  forall st,
    wfGrid (Z.to_nat gridSize) (genGrid st) ->
    grows gridSize st (expandNeighbors gridSize ds x y type chain st) /\
    (forall d, d ∈ ds -> inBounds gridSize (x + dx d) (y + dy d) = true ->
               assigned (genGrid (expandNeighbors gridSize ds x y type chain st))
                        (x + dx d) (y + dy d)).
Proof.
  induction ds as [| d ds IH]; intros st Hwf; cbn [expandNeighbors].
  - split; [apply grows_refl; exact Hwf |]. intros d Hd. inversion Hd.
  - destruct (inBounds gridSize (x + dx d) (y + dy d)) eqn:Eb; cbn [negb].
    + destruct (gridAt (genGrid st) (x + dx d) (y + dy d)) as [t0 |] eqn:Eg.
      * destruct (IH st Hwf) as [Hg Hds]. split; [exact Hg |].
        intros d' Hd' Hb'. apply elem_of_cons in Hd'. destruct Hd' as [-> | Hd'].
        -- destruct Hg as (_ & Hmono & _). apply Hmono; [exact Eb |].
           unfold assigned. rewrite Eg. discriminate.
        -- apply Hds; assumption.
      * destruct (childOf type chain (genRng st)) as [[nt nc] g'].
        destruct (assign_grows gridSize st _ _ nt nc g' Hwf Eb Eg) as [Hg1 Ha1].
        set (st1 := mkGen _ _ _ _ _) in *.
        destruct (IH st1 (proj1 Hg1)) as [Hg Hds].
        split; [eapply grows_trans; eassumption |].
        intros d' Hd' Hb'. apply elem_of_cons in Hd'. destruct Hd' as [-> | Hd'].
        -- destruct Hg as (_ & Hmono & _). apply Hmono; assumption.
        -- apply Hds; assumption.
    + destruct (IH st Hwf) as [Hg Hds]. split; [exact Hg |].
      intros d' Hd' Hb'. apply elem_of_cons in Hd'. destruct Hd' as [-> | Hd'].
      * congruence.
      * apply Hds; assumption.
Qed.

(** ** The shuffle keeps the eight directions *)

Lemma swap_elem (l : list Dir) (i r : nat) (d : Dir) : d ∈ l -> d ∈ swap l i r.
Proof.
  intros Hd. unfold swap.
  destruct (l !! i) as [a |] eqn:Ei; [| exact Hd].
  destruct (l !! r) as [b |] eqn:Er; [| exact Hd].
  apply list_elem_of_lookup_1 in Hd. destruct Hd as [j Hj].
  pose proof (lookup_lt_Some _ _ _ Ei) as Hi.
  pose proof (lookup_lt_Some _ _ _ Er) as Hr.
  destruct (decide (j = i)) as [-> | Nji].
  - assert (d = a) by congruence. subst d.
    apply (list_elem_of_lookup_2 _ r).
    apply list_lookup_insert_eq. rewrite length_insert. exact Hr.
  - destruct (decide (j = r)) as [-> | Njr].
    + assert (d = b) by congruence. subst d.
      apply (list_elem_of_lookup_2 _ i).
      rewrite list_lookup_insert_ne by congruence.
      apply list_lookup_insert_eq. exact Hi.
    + apply (list_elem_of_lookup_2 _ j).
      rewrite !list_lookup_insert_ne by congruence. exact Hj.
Qed.

Lemma shuffleFrom_elem (i : nat) (l : list Dir) (g : Rng) (d : Dir) :
  d ∈ l -> d ∈ fst (shuffleFrom i l g).
Proof.
  revert l g. induction i as [| i IH]; intros l g Hd; cbn [shuffleFrom].
  - exact Hd.
  - destruct (randomBelow (Z.of_nat (S i) + 1) g) as [r g'].
    apply IH, swap_elem, Hd.
Qed.

Lemma shuffle_elem (l : list Dir) (g : Rng) (d : Dir) :
  d ∈ l -> d ∈ fst (shuffle l g).
Proof. apply shuffleFrom_elem. Qed.

(** ** The outer loop *)

Lemma centre_inBounds (gridSize : Z) :
  1 <= gridSize -> inBounds gridSize (gridSize / 2) (gridSize / 2) = true.
Proof.
  intros H. apply inBounds_spec.
  assert (0 <= gridSize / 2) by (apply Z.div_pos; lia).
  assert (gridSize / 2 < gridSize) by (apply Z.div_lt_upper_bound; lia).
  lia.
Qed.

(** One turn of the loop keeps the invariant and uses up one unit of
    [holes + length frontier]; the loop is over exactly when the frontier
    is empty. *)
Lemma growStep_inv (gridSize : Z) (st : GenState) :
  1 <= gridSize -> genInv gridSize st ->
  (genFrontier st = [] /\ growStep gridSize st = None) \/
  (exists st', growStep gridSize st = Some (Some st') /\ genInv gridSize st' /\
               S (holes (genGrid st') + length (genFrontier st')) =
               (holes (genGrid st) + length (genFrontier st))%nat).
Proof.
  intros Hsize (Hwf & Hcentre & Hdirs & Hclosed). unfold growStep.
  destruct (genFrontier st) as [| c0 fr0] eqn:Efr; [left; split; reflexivity |].
  right. rewrite <- Efr in *.
  assert (Hlen : 0 < Z.of_nat (length (genFrontier st))) by (rewrite Efr; simpl; lia).
  replace (0 <? Z.of_nat (length (genFrontier st))) with true
    by (symmetry; apply Z.ltb_lt; exact Hlen).
  pose proof (randomBelow_range _ (genRng st) Hlen) as Hidx.
  destruct (randomBelow (Z.of_nat (length (genFrontier st))) (genRng st)) as [idx g1].
  simpl in Hidx.
  destruct (lookup_lt_is_Some_2 (genFrontier st) (Z.to_nat idx)) as [cur Hcur]; [lia |].
  rewrite Hcur.
  pose proof (shuffle_elem (genDirections st) g1) as Hsh.
  destruct (shuffle (genDirections st) g1) as [dirs' g2]. simpl in Hsh.
  set (st0 := mkGen (genGrid st) (genChain st)
                    (delete (Z.to_nat idx) (genFrontier st)) dirs' g2).
  destruct (expandNeighbors_grows gridSize dirs' (cellX cur) (cellY cur)
              (cellType cur) (cellChain cur) st0 Hwf) as [Hg Hnb].
  set (st' := expandNeighbors gridSize dirs' _ _ _ _ st0) in *.
  exists st'. split; [reflexivity |].
  destruct Hg as (Hwf' & Hmono & Hnew & Hfr & Hmeasure & Hd').
  split; [split; [exact Hwf' | split; [| split]] |].
  - apply Hmono; [apply centre_inBounds; exact Hsize | exact Hcentre].
  - intros d Hd. rewrite Hd'. simpl. apply Hsh, Hdirs, Hd.
  - intros x y Hb Ha.
    assert (Hkeep : closedAt gridSize (genGrid st) x y -> closedAt gridSize (genGrid st') x y).
    { intros Hc d Hd Hbd. apply Hmono; [exact Hbd |]. apply Hc; assumption. }
    destruct (Hnew x y Hb Ha) as [Hold | Hin]; [| left; exact Hin].
    destruct (Hclosed x y Hb Hold) as [(c & Hc & Hcx & Hcy) | Hc]; [| right; apply Hkeep, Hc].
    pose proof (delete_Permutation _ _ _ Hcur) as Hperm.
    rewrite Hperm in Hc. apply elem_of_cons in Hc. destruct Hc as [-> | Hc].
    + right. intros d Hd Hbd. subst x y. apply Hnb; [| exact Hbd].
      apply Hsh, Hdirs, Hd.
    + left. exists c. split; [apply Hfr; exact Hc | split; assumption].
  - simpl in Hmeasure. rewrite length_delete in Hmeasure by eauto. lia.
Qed.

(** The loop ends with an empty frontier once it is given more turns than
    [holes + length frontier]. *)
Lemma growLoop_inv (gridSize : Z) :
  1 <= gridSize ->
  forall (fuel : nat) (st : GenState),
    genInv gridSize st ->
    (holes (genGrid st) + length (genFrontier st) < fuel)%nat ->
    exists st', growLoop gridSize fuel st = Some st' /\
                genInv gridSize st' /\ genFrontier st' = [].
Proof.
  intros Hsize fuel. induction fuel as [| fuel IH]; intros st Hinv Hfuel; [lia |].
  cbn [growLoop].
  destruct (growStep_inv gridSize st Hsize Hinv) as [[Hempty ->] | (st1 & -> & Hinv1 & Hm)].
  - exists st. split; [reflexivity |]. split; [exact Hinv | exact Hempty].
  - apply IH; [exact Hinv1 | lia].
Qed.

(** ** The state before the loop *)

Lemma wfGrid_replicate {A : Type} (n : nat) (v : A) :
  wfGrid n (replicate n (replicate n v)).
Proof.
  split; [apply length_replicate |].
  apply Forall_forall. intros row Hrow.
  apply elem_of_replicate in Hrow. destruct Hrow as [-> _].
  apply length_replicate.
Qed.

Lemma gridAt_replicate (n : nat) (x y : Z) :
  gridAt (replicate n (replicate n None)) x y = None.
Proof.
  unfold gridAt.
  destruct (replicate n (replicate n None) !! Z.to_nat y) as [row |] eqn:Ey; [| reflexivity].
  apply lookup_replicate_1 in Ey. destruct Ey as [-> _].
  destruct (replicate n None !! Z.to_nat x) as [c |] eqn:Ex; [| reflexivity].
  apply lookup_replicate_1 in Ex. destruct Ex as [-> _]. reflexivity.
Qed.

Lemma holesRow_replicate (n : nat) : holesRow (replicate n None) = n.
Proof.
  unfold holesRow. induction n as [| n IH]; simpl; [reflexivity |].
  rewrite IH. reflexivity.
Qed.

Lemma holes_replicate (m n : nat) :
  holes (replicate m (replicate n None)) = (m * n)%nat.
Proof.
  induction m as [| m IH]; simpl; [reflexivity |].
  rewrite IH, holesRow_replicate. reflexivity.
Qed.

Lemma genInit_inv (gridSize : Z) (g : Rng) :
  1 <= gridSize ->
  genInv gridSize (genInit gridSize g) /\
  (holes (genGrid (genInit gridSize g)) + length (genFrontier (genInit gridSize g))
   = Z.to_nat (gridSize * gridSize))%nat.
Proof.
  intros Hsize. set (n := Z.to_nat gridSize).
  pose proof (centre_inBounds gridSize Hsize) as Hc.
  destruct (inBounds_nat _ _ _ Hc) as (Hc0 & _ & Hcn & _).
  assert (Hwf0 : wfGrid n (replicate n (replicate n (@None Terrain))))
    by apply wfGrid_replicate.
  assert (Hsame : gridAt (genGrid (genInit gridSize g)) (gridSize / 2) (gridSize / 2)
                  = Some soil).
  { simpl. eapply gridAt_gridSet_same; eassumption. }
  split.
  - split; [simpl; apply wfGrid_gridSet; exact Hwf0 |].
    split; [unfold assigned; rewrite Hsame; discriminate |].
    split; [simpl; tauto |].
    intros x y Hb Ha. left.
    destruct (decide (x = gridSize / 2 /\ y = gridSize / 2)) as [[-> ->] | Hne].
    + exists (mkCell (gridSize / 2) (gridSize / 2) soil 1). simpl.
      split; [apply list_elem_of_singleton; reflexivity | split; reflexivity].
    + exfalso. apply Ha. simpl.
      rewrite gridAt_gridSet_other; [apply gridAt_replicate |].
      destruct (inBounds_nat _ _ _ Hb) as (Hx0 & Hy0 & _ & _). lia.
  - pose proof (holes_gridSet (replicate n (replicate n None))
                  (gridSize / 2) (gridSize / 2) soil (replicate n None)) as Hh.
    rewrite holes_replicate in Hh.
    unfold genInit. cbn [genGrid genFrontier length]. fold n.
    rewrite Z2Nat.inj_mul by lia. fold n.
    rewrite <- Hh; [lia | apply lookup_replicate_2; exact Hcn
                        | apply lookup_replicate_2; exact Hcn].
Qed.

(** ** Every cell is reached from the centre *)

Lemma direction_unit (a b : Z) :
  -1 <= a <= 1 -> -1 <= b <= 1 -> ~ (a = 0 /\ b = 0) -> mkDir a b ∈ directions0.
Proof.
  intros Ha Hb Hnz. apply list_elem_of_In. unfold directions0.
  assert (a = -1 \/ a = 0 \/ a = 1) as [-> | [-> | ->]] by lia;
    assert (b = -1 \/ b = 0 \/ b = 1) as [-> | [-> | ->]] by lia;
    simpl; try tauto.
Qed.

Lemma closed_everywhere (gridSize : Z) (grid : Grid) :
  1 <= gridSize ->
  assigned grid (gridSize / 2) (gridSize / 2) ->
  (forall x y, inBounds gridSize x y = true -> assigned grid x y ->
               closedAt gridSize grid x y) ->
  forall x y, inBounds gridSize x y = true -> assigned grid x y.
Proof.
  intros Hsize Hcentre Hclosed.
  pose proof (centre_inBounds gridSize Hsize) as Hc. apply inBounds_spec in Hc.
  set (c := gridSize / 2) in *.
  assert (Hk : forall (k : nat) x y, inBounds gridSize x y = true ->
                 Z.abs (x - c) + Z.abs (y - c) <= Z.of_nat k -> assigned grid x y).
  { induction k as [| k IH]; intros x y Hb Hdist.
    - assert (x = c) by lia. assert (y = c) by lia. subst x y. exact Hcentre.
    - pose proof Hb as Hxy. apply inBounds_spec in Hxy.
      assert (Hstep : forall a b, -1 <= a <= 1 -> -1 <= b <= 1 -> ~ (a = 0 /\ b = 0) ->
                 Z.abs (x - a - c) + Z.abs (y - b - c) <= Z.of_nat k ->
                 0 <= x - a < gridSize -> 0 <= y - b < gridSize ->
                 assigned grid x y).
      { intros a b Ha Hb' Hnz Hd Hxa Hyb.
        assert (Hin : inBounds gridSize (x - a) (y - b) = true)
          by (apply inBounds_spec; lia).
        pose proof (Hclosed _ _ Hin (IH _ _ Hin Hd) (mkDir a b)
                      (direction_unit a b Ha Hb' Hnz)) as Hnext.
        simpl in Hnext.
        replace (x - a + a) with x in Hnext by lia.
        replace (y - b + b) with y in Hnext by lia.
        apply Hnext. exact Hb. }
      destruct (Z.lt_trichotomy x c) as [Hx | [Hx | Hx]].
      + apply (Hstep (-1) 0); lia.
      + destruct (Z.lt_trichotomy y c) as [Hy | [Hy | Hy]].
        * apply (Hstep 0 (-1)); lia.
        * subst x y. exact Hcentre.
        * apply (Hstep 0 1); lia.
      + apply (Hstep 1 0); lia. }
  intros x y Hb. apply (Hk (Z.to_nat (Z.abs (x - c) + Z.abs (y - c)))); [exact Hb | lia].
Qed.

(** * The claim about coverage *)

(** C5 (full coverage).  For every grid side of at least 1 and every random
    source, [generateGrid] given more than [gridSize * gridSize] turns of its
    loop returns: the loop ends, no error is raised.  The grid it returns is
    square of side [gridSize], and every cell of it holds one of the three
    terrain kinds (none is left [null]). *)
Theorem full_coverage (gridSize : Z) (fuel : nat) (g : Rng) :
  1 <= gridSize ->
  (Z.to_nat (gridSize * gridSize) < fuel)%nat ->
  exists grid g',
    generateGrid gridSize fuel g = Some (grid, g') /\
    wfGrid (Z.to_nat gridSize) grid /\
    (forall x y, 0 <= x < gridSize -> 0 <= y < gridSize ->
                 exists t, gridAt grid x y = Some t) /\
    holes grid = O.
Proof.
  intros Hsize Hfuel.
  destruct (genInit_inv gridSize g Hsize) as [Hinv0 Hm0].
  destruct (growLoop_inv gridSize Hsize fuel (genInit gridSize g) Hinv0)
    as (st & Hrun & (Hwf & Hcentre & _ & Hclosed) & Hempty); [lia |].
  exists (genGrid st), (genRng st).
  split; [unfold generateGrid; rewrite Hrun; reflexivity |].
  split; [exact Hwf |].
  assert (Hall : forall x y, inBounds gridSize x y = true -> assigned (genGrid st) x y).
  { apply closed_everywhere; [exact Hsize | exact Hcentre |].
    intros x y Hb Ha. destruct (Hclosed x y Hb Ha) as [(c & Hc & _) | Hc]; [| exact Hc].
    rewrite Hempty in Hc. inversion Hc. }
  split.
  - intros x y Hx Hy. specialize (Hall x y (proj2 (inBounds_spec _ _ _) (conj Hx Hy))).
    unfold assigned in Hall. destruct (gridAt (genGrid st) x y) as [t |]; [eauto | congruence].
  - destruct Hwf as [Hlen Hrows].
    assert (Hrow0 : forall j row, genGrid st !! j = Some row -> holesRow row = O).
    { intros j row Hj.
      assert (Hjn : (j < Z.to_nat gridSize)%nat)
        by (rewrite <- Hlen; eapply lookup_lt_Some; exact Hj).
      unfold holesRow.
      destruct (List.filter isHole row) as [| c rest] eqn:Ef; [reflexivity |].
      exfalso.
      assert (Hin : In c (List.filter isHole row)) by (rewrite Ef; left; reflexivity).
      apply filter_In in Hin. destruct Hin as [Hin Hc].
      destruct c; [discriminate |].
      apply list_elem_of_In, list_elem_of_lookup_1 in Hin. destruct Hin as [i Hi].
      assert (Hil : (i < Z.to_nat gridSize)%nat).
      { rewrite Forall_forall in Hrows.
        rewrite <- (Hrows row (list_elem_of_lookup_2 _ _ _ Hj)).
        eapply lookup_lt_Some. exact Hi. }
      apply (Hall (Z.of_nat i) (Z.of_nat j)); [apply inBounds_spec; lia |].
      unfold gridAt. rewrite !Nat2Z.id, Hj, Hi. reflexivity. }
    clear -Hrow0. revert Hrow0. generalize (genGrid st) as grid.
    induction grid as [| row grid IH]; intros H; simpl; [reflexivity |].
    rewrite (H O row eq_refl), IH; [reflexivity |].
    intros j r Hj. apply (H (S j) r). exact Hj.
Qed.

(** * The claims about the transition rules *)

(** The inner loop on a single direction whose cell is on the grid and
    still [null]: the cell gets the kind and chain computed by [childOf]
    and is pushed on the frontier. *)
Lemma expandNeighbors_one (gridSize : Z) (d : Dir) (x y : Z) (type : Terrain) (chain : Z)
      (st : GenState) :
  wfGrid (Z.to_nat gridSize) (genGrid st) ->
  inBounds gridSize (x + dx d) (y + dy d) = true ->
  gridAt (genGrid st) (x + dx d) (y + dy d) = None ->
  let '(t, c, g') := childOf type chain (genRng st) in
  let st' := expandNeighbors gridSize [d] x y type chain st in
  gridAt (genGrid st') (x + dx d) (y + dy d) = Some t /\
  genFrontier st' = genFrontier st ++ [mkCell (x + dx d) (y + dy d) t c] /\
  genRng st' = g'.
Proof.
  intros Hwf Hb Hnone. cbn [expandNeighbors]. rewrite Hb, Hnone. cbn [negb].
  destruct (childOf type chain (genRng st)) as [[t c] g']. cbn.
  destruct (inBounds_nat _ _ _ Hb) as (_ & _ & Hx & Hy).
  split; [eapply gridAt_gridSet_same; eassumption | split; reflexivity].
Qed.

(** The thresholds are what binary64 arithmetic gives for the two
    expressions, on every chain from 1 to 400 (from 201, resp. 21, on they
    are 0). *)
Lemma thresholds_as_binary64 (chain : Z) :
  1 <= chain <= 400 ->
  (soilProbability chain == SF2Q (soilProbabilityF chain))%Q /\
  (sandProbability chain == SF2Q (sandProbabilityF chain))%Q.
Proof.
  intros Hc.
  assert (Hall : forallb (fun c : nat =>
                   Qeq_bool (soilProbability (Z.of_nat c))
                            (SF2Q (soilProbabilityF (Z.of_nat c))) &&
                   Qeq_bool (sandProbability (Z.of_nat c))
                            (SF2Q (sandProbabilityF (Z.of_nat c))))
                 (seq 1 400) = true) by (vm_compute; reflexivity).
  rewrite forallb_forall in Hall.
  specialize (Hall (Z.to_nat chain)).
  rewrite Z2Nat.id in Hall by lia.
  assert (Hin : In (Z.to_nat chain) (seq 1 400)) by (apply in_seq; lia).
  apply Hall in Hin. apply andb_true_iff in Hin.
  split; apply Qeq_bool_iff; tauto.
Qed.

(** The threshold of a soil parent of chain 3 is the double nearest to
    0.99, which is below 0.99. *)
Lemma soilProbability_3 :
  soilProbability 3 = (8917127262193582 # 9007199254740992)%Q /\
  (soilProbability 3 < 99 # 100)%Q.
Proof. split; [vm_compute; reflexivity | vm_compute; reflexivity]. Qed.

(** C6 (transition rules), amended.  With [r] the next value of the random
    source and a chain of at least 1: a child of a soil parent of chain
    [chain] is soil with chain [chain + 1] exactly when [r] is below the
    double nearest to [max(100 - (chain-1)*0.5, 0)/100], which is the value
    of that expression in the program, and is sand with chain 1 otherwise; a
    child of a sand parent is sand with chain [chain + 1] exactly when [r]
    is below the double nearest to [max(100 - (chain-1)*5, 0)/100] and is
    water with chain 1 otherwise.  One value is drawn in each case, and this
    is the kind and chain the generator writes into a [null] neighbour. *)
Theorem transition_rules (chain : Z) (g : Rng) :
  1 <= chain ->
  let r := fst (Math_random g) in
  let pSoil := roundDouble (Qmax (100 - inject_Z (chain - 1) * (1 # 2)) 0 / 100)%Q in
  let pSand := roundDouble (Qmax (100 - inject_Z (chain - 1) * 5) 0 / 100)%Q in
  ((r < pSoil)%Q -> childOf soil chain g = (soil, chain + 1, skip 1 g)) /\
  (~ (r < pSoil)%Q -> childOf soil chain g = (sand, 1, skip 1 g)) /\
  ((r < pSand)%Q -> childOf sand chain g = (sand, chain + 1, skip 1 g)) /\
  (~ (r < pSand)%Q -> childOf sand chain g = (water, 1, skip 1 g)) /\
  (forall gridSize d x y type st,
      wfGrid (Z.to_nat gridSize) (genGrid st) ->
      inBounds gridSize (x + dx d) (y + dy d) = true ->
      gridAt (genGrid st) (x + dx d) (y + dy d) = None ->
      gridAt (genGrid (expandNeighbors gridSize [d] x y type chain st))
             (x + dx d) (y + dy d)
      = Some (fst (fst (childOf type chain (genRng st))))).
Proof.
  intros _ r pSoil pSand.
  assert (HM : Math_random g = (r, skip 1 g)).
  { unfold r. rewrite <- Math_random_skip. destruct (Math_random g); reflexivity. }
  assert (Hsoil : childOf soil chain g =
                  if Qltb r pSoil then (soil, chain + 1, skip 1 g) else (sand, 1, skip 1 g))
    by (unfold childOf; rewrite HM; reflexivity).
  assert (Hsand : childOf sand chain g =
                  if Qltb r pSand then (sand, chain + 1, skip 1 g) else (water, 1, skip 1 g))
    by (unfold childOf; rewrite HM; reflexivity).
  split; [| split; [| split; [| split]]].
  - intros H. apply Qltb_lt in H. rewrite Hsoil, H. reflexivity.
  - intros H. rewrite Hsoil. destruct (Qltb r pSoil) eqn:E; [| reflexivity].
    apply Qltb_lt in E. contradiction.
  - intros H. apply Qltb_lt in H. rewrite Hsand, H. reflexivity.
  - intros H. rewrite Hsand. destruct (Qltb r pSand) eqn:E; [| reflexivity].
    apply Qltb_lt in E. contradiction.
  - intros gridSize d x y type st Hwf Hb Hnone.
    pose proof (expandNeighbors_one gridSize d x y type chain st Hwf Hb Hnone) as H.
    destruct (childOf type chain (genRng st)) as [[t c] g'].
    cbn zeta in H. destruct H as [H _]. exact H.
Qed.

(** At chain 3 and the draw [near99] the amended rule gives sand: the draw
    equals the threshold. *)
Lemma transition_rules_witness :
  1 <= 3 /\ childOf soil 3 (constRng near99) = (sand, 1, skip 1 (constRng near99)).
Proof.
  assert (H1 : 1 <= 3) by discriminate.
  split; [exact H1 |].
  apply (transition_rules 3 (constRng near99) H1).
  intros H. vm_compute in H. discriminate H.
Defined.

(** C6 as it was stated, with the exact quotient for threshold, fails on the
    program: at chain 3 the draw [near99] is below [99/100], yet the child
    of a soil parent is sand. *)
Lemma exact_threshold_fails_at_chain_3 :
  (fst (Math_random (constRng near99))
   < Qmax (100 - inject_Z (3 - 1) * (1 # 2)) 0 / 100)%Q /\
  childOf soil 3 (constRng near99) = (sand, 1, skip 1 (constRng near99)) /\
  ~ (forall chain g,
        1 <= chain ->
        (fst (Math_random g) < Qmax (100 - inject_Z (chain - 1) * (1 # 2)) 0 / 100)%Q ->
        childOf soil chain g = (soil, chain + 1, skip 1 g)).
Proof.
  assert (Hlt : (fst (Math_random (constRng near99))
                 < Qmax (100 - inject_Z (3 - 1) * (1 # 2)) 0 / 100)%Q)
    by (vm_compute; reflexivity).
  assert (Hsand : childOf soil 3 (constRng near99) = (sand, 1, skip 1 (constRng near99)))
    by (vm_compute; reflexivity).
  split; [exact Hlt |]. split; [exact Hsand |].
  intros H. specialize (H 3 (constRng near99) ltac:(discriminate) Hlt).
  rewrite Hsand in H. discriminate H.
Qed.

(** ** The ends of the decay *)

Lemma roundDouble_0 (q : Q) : Qnum q = 0 -> roundDouble q = 0%Q.
Proof. intros H. unfold roundDouble. rewrite H. reflexivity. Qed.

Lemma Qnum_max_div (x : Q) : (x <= 0)%Q -> Qnum (Qmax x 0 / 100) = 0.
Proof.
  intros Hx. assert (E : (Qmax x 0 == 0)%Q) by (apply Q.max_r; exact Hx).
  unfold Qeq in E. simpl in E. unfold Qdiv, Qmult. simpl. lia.
Qed.

Lemma drawQ_range (d : Draw) : (0 <= drawQ d)%Q /\ (drawQ d < 1)%Q.
Proof.
  pose proof (draw_bounds d). unfold drawQ, Qle, Qlt; simpl. lia.
Qed.

(** A parent of chain 1 always begets its own kind. *)
Lemma childOf_first (type : Terrain) (g : Rng) :
  fst (fst (childOf type 1 g)) = type /\ snd (fst (childOf type 1 g)) = 2.
Proof.
  destruct type; [| | split; reflexivity]; unfold childOf.
  - assert (Hr : (fst (Math_random g) < soilProbability 1)%Q).
    { unfold Math_random. cbn [fst].
      destruct (drawQ_range (draws g (cursor g))) as [_ H].
      assert (E : (soilProbability 1 == 1)%Q) by (vm_compute; reflexivity).
      rewrite E. exact H. }
    destruct (Math_random g) as [r g1]. simpl in Hr.
    apply Qltb_lt in Hr. rewrite Hr. split; reflexivity.
  - assert (Hr : (fst (Math_random g) < sandProbability 1)%Q).
    { unfold Math_random. cbn [fst].
      destruct (drawQ_range (draws g (cursor g))) as [_ H].
      assert (E : (sandProbability 1 == 1)%Q) by (vm_compute; reflexivity).
      rewrite E. exact H. }
    destruct (Math_random g) as [r g1]. simpl in Hr.
    apply Qltb_lt in Hr. rewrite Hr. split; reflexivity.
Qed.

(** From chain 201 on a soil parent begets sand, and from chain 21 on a
    sand parent begets water: the threshold has reached 0. *)
Lemma childOf_soil_exhausted (chain : Z) (g : Rng) :
  201 <= chain -> childOf soil chain g = (sand, 1, skip 1 g).
Proof.
  intros Hc. unfold childOf.
  pose proof (Math_random_skip g) as Hg.
  assert (Hr : (soilProbability chain <= fst (Math_random g))%Q).
  { unfold Math_random. cbn [fst].
    destruct (drawQ_range (draws g (cursor g))) as [H _].
    assert (E : (soilProbability chain == 0)%Q).
    { unfold soilProbability.
      rewrite roundDouble_0; [reflexivity |]. apply Qnum_max_div.
      unfold Qle, Qminus, Qplus, Qmult, Qopp, inject_Z; simpl. lia. }
    rewrite E. exact H. }
  destruct (Math_random g) as [r g1]. simpl in Hg, Hr. subst g1.
  apply Qltb_ge in Hr. rewrite Hr. reflexivity.
Qed.

Lemma childOf_sand_exhausted (chain : Z) (g : Rng) :
  21 <= chain -> childOf sand chain g = (water, 1, skip 1 g).
Proof.
  intros Hc. unfold childOf.
  pose proof (Math_random_skip g) as Hg.
  assert (Hr : (sandProbability chain <= fst (Math_random g))%Q).
  { unfold Math_random. cbn [fst].
    destruct (drawQ_range (draws g (cursor g))) as [H _].
    assert (E : (sandProbability chain == 0)%Q).
    { unfold sandProbability.
      rewrite roundDouble_0; [reflexivity |]. apply Qnum_max_div.
      unfold Qle, Qminus, Qplus, Qmult, Qopp, inject_Z; simpl. lia. }
    rewrite E. exact H. }
  destruct (Math_random g) as [r g1]. simpl in Hg, Hr. subst g1.
  apply Qltb_ge in Hr. rewrite Hr. reflexivity.
Qed.

(** ** Water *)

Lemma gridAt_gridSet_cases (grid : Grid) (x y x' y' : Z) (t : Terrain) :
  gridAt (gridSet grid x y (Some t)) x' y' = gridAt grid x' y' \/
  gridAt (gridSet grid x y (Some t)) x' y' = Some t.
Proof.
  destruct (decide (Z.to_nat x = Z.to_nat x')) as [Ex | Nx];
    [| left; apply gridAt_gridSet_other; left; exact Nx].
  destruct (decide (Z.to_nat y = Z.to_nat y')) as [Ey | Ny];
    [| left; apply gridAt_gridSet_other; right; exact Ny].
  unfold gridAt, gridSet. rewrite <- Ex, <- Ey, list_lookup_alter_eq.
  destruct (grid !! Z.to_nat y) as [row |]; simpl; [| left; reflexivity].
  destruct (decide (Z.to_nat x < length row)%nat) as [Hlt | Hge].
  - right. rewrite list_lookup_insert_eq by exact Hlt. reflexivity.
  - left. rewrite list_insert_ge by lia. reflexivity.
Qed.

(** The inner loop from a water parent pushes only water entries of chain
    [chain + 1], writes only water into the grid, and draws nothing. *)
Lemma expandNeighbors_water (gridSize : Z) (ds : list Dir) (x y chain : Z) :
  forall st,
    let st' := expandNeighbors gridSize ds x y water chain st in
    (forall c, c ∈ genFrontier st' ->
               c ∈ genFrontier st \/ (cellType c = water /\ cellChain c = chain + 1)) /\
    (forall nx ny, gridAt (genGrid st') nx ny = gridAt (genGrid st) nx ny \/
                   gridAt (genGrid st') nx ny = Some water) /\
    genRng st' = genRng st.
Proof.
  induction ds as [| d ds IH]; intros st; cbn [expandNeighbors].
  - cbn zeta. repeat split; tauto.
  - destruct (inBounds gridSize (x + dx d) (y + dy d)); cbn [negb]; [| apply IH].
    destruct (gridAt (genGrid st) (x + dx d) (y + dy d)); [apply IH |].
    cbn [childOf].
    set (st1 := mkGen _ _ _ _ _).
    destruct (IH st1) as (Hfr & Hgrid & Hrng). cbn zeta.
    split; [| split].
    + intros c Hc. destruct (Hfr c Hc) as [Hin | Hw]; [| right; exact Hw].
      simpl in Hin. apply elem_of_app in Hin. destruct Hin as [Hin | Hin]; [left; exact Hin |].
      apply list_elem_of_singleton in Hin. subst c. right. split; reflexivity.
    + intros nx ny. destruct (Hgrid nx ny) as [E | E]; [| right; exact E].
      rewrite E. simpl. apply gridAt_gridSet_cases.
    + rewrite Hrng. reflexivity.
Qed.

Lemma descend_water (gs : list Rng) (chain : Z) :
  descend (water, chain) gs = (water, chain + Z.of_nat (length gs)).
Proof.
  unfold descend. revert chain. induction gs as [| g gs IH]; intros chain.
  - simpl. f_equal. lia.
  - cbn [fold_left fst snd childOf length]. rewrite IH. f_equal. lia.
Qed.

(** C7 (water is absorbing).  A child of a water parent is water with
    chain [chain + 1] whatever the random source, which is left untouched;
    in the generator, expanding a water cell pushes only water entries of
    chain [chain + 1] on the frontier and changes cells of the grid only to
    water; and along a generation path that starts at a water cell every
    descendant is water. *)
Theorem water_absorbing (gridSize : Z) (chain : Z) :
  (forall g, childOf water chain g = (water, chain + 1, g)) /\
  (forall ds x y st,
      let st' := expandNeighbors gridSize ds x y water chain st in
      (forall c, c ∈ genFrontier st' ->
                 c ∈ genFrontier st \/ (cellType c = water /\ cellChain c = chain + 1)) /\
      (forall nx ny, gridAt (genGrid st') nx ny = gridAt (genGrid st) nx ny \/
                     gridAt (genGrid st') nx ny = Some water) /\
      genRng st' = genRng st) /\
  (forall gs, fst (descend (water, chain) gs) = water).
Proof.
  split; [reflexivity |]. split.
  - intros ds x y st. apply expandNeighbors_water.
  - intros gs. rewrite descend_water. reflexivity.
Qed.

(** * The run of the program with [programRun] *)

Lemma run_startGame :
  option_map fst (startGame 100 programRun)
  = Some (allSoil 100, mkSim (rowFood 0) (rowBlobs 50)).
Proof. vm_compute. reflexivity. Qed.

Lemma gridAt_allSoil (n : nat) (x y : Z) :
  (Z.to_nat x < n)%nat -> (Z.to_nat y < n)%nat -> gridAt (allSoil n) x y = Some soil.
Proof.
  intros Hx Hy. unfold gridAt, allSoil.
  rewrite lookup_replicate_2 by exact Hy.
  rewrite lookup_replicate_2 by exact Hx. reflexivity.
Qed.

(** ** Counters that are numbers *)

Lemma survives_spec (b : Blob) :
  survives b = true <-> exists n, stepsSinceMeal b = Js.num n /\ n < maxStepsWithoutFood.
Proof.
  unfold survives, Js.lt. destruct (stepsSinceMeal b) as [| | n].
  - split; [discriminate | intros (n & H & _); discriminate].
  - split; [discriminate | intros (n & H & _); discriminate].
  - rewrite Z.ltb_lt. split.
    + intros H. exists n. split; [reflexivity | exact H].
    + intros (m & H & Hm). injection H as ->. exact Hm.
Qed.

(** After any tick every counter is a number below the limit. *)
Lemma advance_counters (gridSize : Z) (st : SimState) (g : Rng) (st' : SimState) (g' : Rng) :
  advance gridSize st g = Some (st', g') ->
  Forall (fun b => exists n, stepsSinceMeal b = Js.num n /\ n < maxStepsWithoutFood)
         (blobs st').
Proof.
  unfold advance. intros H.
  destruct (mapBlobs gridSize (blobs st) (food st) g) as [[[mapped fd'] g1] |]; [| discriminate].
  injection H as <- <-. simpl. apply Forall_forall. intros b Hb.
  apply list_elem_of_In, filter_In in Hb. apply survives_spec, Hb.
Qed.

(** A blob whose counter is the number [n] and that does not eat (the food
    list keeps its length) comes out with [n + 1], and is kept by the
    filter exactly when [n + 1 < 100]. *)
Lemma hungry_step (gridSize : Z) (x y n : Z) (fd : list Food) (g : Rng)
      (b' : Blob) (fd' : list Food) (g' : Rng) :
  stepBlob gridSize (mkBlob x y (Js.num n)) fd g = Some (b', fd', g') ->
  length fd' = length fd ->
  stepsSinceMeal b' = Js.num (n + 1) /\
  (survives b' = true <-> n + 1 < maxStepsWithoutFood).
Proof.
  intros H Hlen.
  destruct (stepBlob_food _ _ _ _ _ _ _ H) as [[_ Hs] | (_ & Hl & _)]; [| lia].
  simpl in Hs. split; [exact Hs |].
  unfold survives. rewrite Hs. simpl. apply Z.ltb_lt.
Qed.

(** A blob whose counter is [NaN] fails the filter although its counter is
    not [>= 100]. *)
Lemma NaN_culled (x y : Z) :
  survives (mkBlob x y Js.NaN) = false /\
  Js.ge (stepsSinceMeal (mkBlob x y Js.NaN)) maxStepsWithoutFood = false.
Proof. split; reflexivity. Qed.

(** * The seeded counter *)

(** C1 (seeded blobs), at the run [programRun]: the grid is soil
    everywhere and the hundred blobs are seeded on row 50.  Each of them is
    on a soil cell, but its [stepsSinceMeal] is [undefined], not 0: the
    object pushed by [generateBlobs] is [{ x, y }]. *)
Theorem seeded_blobs_lack_counter :
  option_map (fun r => (fst (fst r), blobs (snd (fst r)))) (startGame 100 programRun)
  = Some (allSoil 100, rowBlobs 50) /\
  Forall (fun b => onSoil (allSoil 100) (blobX b) (blobY b) /\
                   stepsSinceMeal b = Js.undefined /\ ~ fed b) (rowBlobs 50).
Proof.
  split.
  - pose proof run_startGame as H.
    destruct (startGame 100 programRun) as [[[grid st] g] |]; [| discriminate].
    simpl in *. injection H as -> ->. reflexivity.
  - unfold rowBlobs. apply Forall_map, Forall_forall. intros j Hj.
    apply list_elem_of_In, in_seq in Hj. cbn [blobX blobY stepsSinceMeal].
    split; [apply gridAt_allSoil; lia |].
    split; [reflexivity | unfold fed; simpl; discriminate].
Qed.

(** C3 (starvation culling), at the run [programRun]: the hundred blobs
    are seeded on row 50 and the hundred food items on row 0, so no blob
    eats during the first tick; after that one tick no blob is left and all
    the food is. *)
Theorem seeded_blobs_culled_on_first_tick :
  option_map (fun r => snd (fst r)) (startGame 100 programRun)
  = Some (mkSim (rowFood 0) (rowBlobs 50)) /\
  firstTick 100 programRun = Some (mkSim (rowFood 0) []).
Proof.
  split.
  - pose proof run_startGame as H.
    destruct (startGame 100 programRun) as [[[grid st] g] |]; [| discriminate].
    simpl in *. injection H as -> ->. reflexivity.
  - vm_compute. reflexivity.
Qed.

(** * Instances *)

Lemma eat_in_place_witness :
  mapBlobs 100 [] [mkFood 5 5; mkFood 5 6] (constRng (drawOf 1 2))
  = Some ([], [mkFood 5 5; mkFood 5 6], constRng (drawOf 1 2)) /\
  cellOf (mkBlob 5 5 (Js.num 7)) ∈ [mkFood 5 5; mkFood 5 6] /\
  exists i,
    stepBlob 100 (mkBlob 5 5 (Js.num 7)) [mkFood 5 5; mkFood 5 6] (constRng (drawOf 1 2))
    = Some (mkBlob 5 5 (Js.num 0), delete i [mkFood 5 5; mkFood 5 6],
            constRng (drawOf 1 2)).
Proof.
  assert (H1 : mapBlobs 100 [] [mkFood 5 5; mkFood 5 6] (constRng (drawOf 1 2))
               = Some ([], [mkFood 5 5; mkFood 5 6], constRng (drawOf 1 2)))
    by reflexivity.
  assert (H2 : cellOf (mkBlob 5 5 (Js.num 7)) ∈ [mkFood 5 5; mkFood 5 6])
    by apply list_elem_of_here.
  split; [exact H1 |]. split; [exact H2 |].
  destruct (eat_in_place 100 [] [] (mkBlob 5 5 (Js.num 7)) _ _ _ _ _ H1 H2)
    as (i & _ & Hstep & _).
  exists i. exact Hstep.
Defined.


Lemma first_tick_keeps_only_eaters_witness :
  2 <= 100 /\ (Z.to_nat 100 <= length (allSoil 100))%nat /\
  (Z.to_nat maxAttempts < seedFuel)%nat /\
  exists st g1 st' g2,
    initialState 100 seedFuel (allSoil 100) (constRng (drawOf 1 2)) = Some (st, g1) /\
    advance 100 st g1 = Some (st', g2) /\
    Forall fed (blobs st').
Proof.
  assert (H1 : 2 <= 100) by discriminate.
  assert (H2 : (Z.to_nat 100 <= length (allSoil 100))%nat).
  { unfold allSoil. rewrite length_replicate. apply le_n. }
  assert (H3 : (Z.to_nat maxAttempts < seedFuel)%nat) by apply Nat.lt_succ_diag_r.
  split; [exact H1 |]. split; [exact H2 |]. split; [exact H3 |].
  destruct (first_tick_keeps_only_eaters 100 (allSoil 100) seedFuel
              (constRng (drawOf 1 2)) H1 H2 H3)
    as (st & g1 & st' & g2 & Hinit & _ & Hadv & Hfed & _).
  exists st, g1, st', g2.
  split; [exact Hinit |]. split; [exact Hadv | exact Hfed].
Defined.

Lemma full_coverage_witness :
  1 <= 100 /\ (Z.to_nat (100 * 100) < genFuel)%nat /\
  exists grid g', generateGrid 100 genFuel programRun = Some (grid, g') /\ holes grid = O.
Proof.
  assert (H1 : 1 <= 100) by discriminate.
  assert (H2 : (Z.to_nat (100 * 100) < genFuel)%nat) by apply Nat.lt_succ_diag_r.
  split; [exact H1 |]. split; [exact H2 |].
  destruct (full_coverage 100 genFuel programRun H1 H2) as (grid & g' & Hgen & _ & _ & Hh).
  exists grid, g'. split; [exact Hgen | exact Hh].
Defined.

(** * More about the tick *)

Lemma stepBlob_sublist (gridSize : Z) (b : Blob) (fd : list Food) (g : Rng)
      (b' : Blob) (fd' : list Food) (g' : Rng) :
  stepBlob gridSize b fd g = Some (b', fd', g') -> sublist fd' fd.
Proof.
  intros H. apply stepBlob_cases in H.
  destruct H as [(i & _ & _ & -> & _) | (_ & mv & _ & _ & [(i & _ & _ & ->) | (_ & _ & ->)])].
  - apply sublist_delete.
  - apply sublist_delete.
  - reflexivity.
Qed.

Lemma mapBlobs_sublist (gridSize : Z) (bs : list Blob) (fd : list Food) (g : Rng)
      (out : list Blob) (fd' : list Food) (g' : Rng) :
  mapBlobs gridSize bs fd g = Some (out, fd', g') -> sublist fd' fd.
Proof.
  revert fd g out fd' g'.
  induction bs as [| b bs IH]; intros fd g out fd' g' H; simpl in H.
  - injection H as <- <- <-. reflexivity.
  - destruct (stepBlob gridSize b fd g) as [[[b1 f1] g1] |] eqn:Es; [| discriminate].
    destruct (mapBlobs gridSize bs f1 g1) as [[[o f2] g2] |] eqn:Em; [| discriminate].
    injection H as <- <- <-.
    etransitivity; [eapply IH; exact Em | eapply stepBlob_sublist; exact Es].
Qed.

Lemma mapBlobs_stepped (gridSize : Z) (bs : list Blob) (fd : list Food) (g : Rng)
      (out : list Blob) (fd' : list Food) (g' : Rng) :
  mapBlobs gridSize bs fd g = Some (out, fd', g') ->
  Forall2 (stepped gridSize) bs out.
Proof.
  revert fd g out fd' g'.
  induction bs as [| b bs IH]; intros fd g out fd' g' H; simpl in H.
  - injection H as <- <- <-. constructor.
  - destruct (stepBlob gridSize b fd g) as [[[b1 f1] g1] |] eqn:Es; [| discriminate].
    destruct (mapBlobs gridSize bs f1 g1) as [[[o f2] g2] |] eqn:Em; [| discriminate].
    injection H as <- <- <-. constructor; [| eapply IH; exact Em].
    split; [apply (stepBlob_near _ _ _ _ _ _ _ Es) |].
    destruct (stepBlob_food _ _ _ _ _ _ _ Es) as [[_ Hs] | (_ & _ & Hf)]; tauto.
Qed.

(** When the food list keeps its length through the map, no blob ate. *)
Lemma mapBlobs_nobody_ate (gridSize : Z) (bs : list Blob) (fd : list Food) (g : Rng)
      (out : list Blob) (fd' : list Food) (g' : Rng) :
  mapBlobs gridSize bs fd g = Some (out, fd', g') ->
  length fd' = length fd ->
  Forall2 (fun b b' => stepsSinceMeal b' = Js.add1 (stepsSinceMeal b)) bs out.
Proof.
  revert fd g out fd' g'.
  induction bs as [| b bs IH]; intros fd g out fd' g' H Hlen; simpl in H.
  - injection H as <- <- <-. constructor.
  - destruct (stepBlob gridSize b fd g) as [[[b1 f1] g1] |] eqn:Es; [| discriminate].
    destruct (mapBlobs gridSize bs f1 g1) as [[[o f2] g2] |] eqn:Em; [| discriminate].
    injection H as <- <- <-.
    pose proof (mapBlobs_length _ _ _ _ _ _ _ Em) as [Hle _].
    destruct (stepBlob_food _ _ _ _ _ _ _ Es) as [[-> Hs] | (_ & Hl & _)]; [| lia].
    constructor; [exact Hs | eapply IH; eassumption].
Qed.

Lemma advance_unfold (gridSize : Z) (st : SimState) (g : Rng) (st' : SimState) (g' : Rng) :
  advance gridSize st g = Some (st', g') ->
  exists mapped,
    mapBlobs gridSize (blobs st) (food st) g = Some (mapped, food st', g') /\
    blobs st' = List.filter survives mapped.
Proof.
  unfold advance. intros H.
  destruct (mapBlobs gridSize (blobs st) (food st) g) as [[[mapped fd'] g1] |]; [| discriminate].
  injection H as <- <-. exists mapped. split; reflexivity.
Qed.

Lemma filter_length_le {A : Type} (p : A -> bool) (l : list A) :
  (length (List.filter p l) <= length l)%nat.
Proof.
  induction l as [| a l IH]; simpl; [lia |]. destruct (p a); simpl; lia.
Qed.

Lemma advance_shrinks (gridSize : Z) (st : SimState) (g : Rng) (st' : SimState) (g' : Rng) :
  advance gridSize st g = Some (st', g') ->
  sublist (food st') (food st) /\ (length (blobs st') <= length (blobs st))%nat.
Proof.
  intros H. destruct (advance_unfold _ _ _ _ _ H) as (mapped & Hm & ->).
  split; [eapply mapBlobs_sublist; exact Hm |].
  pose proof (mapBlobs_length _ _ _ _ _ _ _ Hm) as [_ Hl].
  rewrite <- Hl. apply filter_length_le.
Qed.

(** X1 (a tick creates nothing).  Whenever the tick returns, the new food
    list is the old one with some items taken out (same order, nothing
    added), so food items that were pairwise distinct stay so, and there are
    no more blobs than before. *)
Theorem tick_creates_nothing (gridSize : Z) (st : SimState) (g : Rng)
        (st' : SimState) (g' : Rng) :
  advance gridSize st g = Some (st', g') ->
  sublist (food st') (food st) /\
  (NoDup (food st) -> NoDup (food st')) /\
  (length (blobs st') <= length (blobs st))%nat.
Proof.
  intros H. destruct (advance_shrinks _ _ _ _ _ H) as [Hsub Hlen].
  split; [exact Hsub |]. split; [| exact Hlen].
  intros Hnd. eapply sublist_NoDup; eassumption.
Qed.

Lemma tick_creates_nothing_witness :
  exists st' g',
    advance 100 (mkSim [mkFood 5 6; mkFood 9 9] [mkBlob 5 5 (Js.num 3)])
            (constRng (drawOf 1 2)) = Some (st', g') /\
    sublist (food st') [mkFood 5 6; mkFood 9 9].
Proof.
  destruct (advance 100 (mkSim [mkFood 5 6; mkFood 9 9] [mkBlob 5 5 (Js.num 3)])
              (constRng (drawOf 1 2))) as [[st' g'] |] eqn:E; [| discriminate E].
  exists st', g'. split; [reflexivity |].
  exact (proj1 (tick_creates_nothing 100 _ _ _ _ E)).
Defined.

(** A blob that is not on food but has food on a neighbouring cell of the
    grid moves onto such a cell and eats. *)
Lemma stepBlob_seeks (gridSize : Z) (b : Blob) (fd : list Food) (g : Rng) (f : Food) :
  cellOf b ∉ fd ->
  f ∈ fd -> within1 b f ->
  0 <= foodX f < gridSize -> 0 <= foodY f < gridSize ->
  exists b' i,
    stepBlob gridSize b fd g = Some (b', delete i fd, skip 1 g) /\
    fd !! i = Some (cellOf b') /\ fed b' /\ within1 b (cellOf b').
Proof.
  intros Hnot Hin [Hx Hy] Hbx Hby.
  assert (Hcur : findIndex (foodAt (blobX b) (blobY b)) fd = None).
  { apply findIndex_None. destruct (existsb _ fd) eqn:E; [| reflexivity].
    exfalso. apply Hnot. apply existsb_exists in E. destruct E as [a [Ha Hp]].
    apply foodAt_eq in Hp. subst a. apply list_elem_of_In. exact Ha. }
  assert (Hne : f <> cellOf b) by (intros ->; contradiction).
  set (mv := mkDir (foodX f - blobX b) (foodY f - blobY b)).
  assert (Hmv : In mv (neighborMoves gridSize (blobX b) (blobY b))).
  { apply neighborMoves_spec. simpl. repeat split; try lia.
    intros [E1 E2]. apply Hne. destruct f as [fx fy]; unfold cellOf; simpl in *.
    f_equal; lia. }
  unfold stepBlob. rewrite Hcur.
  set (nb := neighborMoves gridSize (blobX b) (blobY b)) in *.
  set (keep := fun move : Dir =>
                 existsb (foodAt (blobX b + dx move) (blobY b + dy move)) fd).
  assert (Hfn : In mv (List.filter keep nb)).
  { apply filter_In. split; [exact Hmv |]. unfold keep.
    apply existsb_exists. exists f. split; [apply list_elem_of_In; exact Hin |].
    apply foodAt_eq. destruct f as [fx fy]; simpl. f_equal; lia. }
  assert (Hlen : (0 <? Z.of_nat (length (List.filter keep nb))) = true).
  { apply Z.ltb_lt. destruct (List.filter keep nb); [destruct Hfn | simpl; lia]. }
  fold keep. rewrite Hlen.
  destruct (pick_nonempty (List.filter keep nb) g) as [c [Hc Hcin]].
  { intros E. rewrite E in Hfn. destruct Hfn. }
  pose proof (pick_rng (List.filter keep nb) g) as Hg.
  destruct (pick (List.filter keep nb) g) as [ch g1]. simpl in Hc, Hg. subst ch g1.
  apply list_elem_of_In, filter_In in Hcin. destruct Hcin as [Hcnb Hck].
  unfold keep in Hck.
  destruct (findIndex_existsb _ _ Hck) as [i Hi]. rewrite Hi.
  destruct (findIndex_Some _ _ _ Hi) as [a [Ha Hp]]. apply foodAt_eq in Hp. subst a.
  apply neighborMoves_spec in Hcnb.
  exists (mkBlob (blobX b + dx c) (blobY b + dy c) (Js.num 0)), i.
  split; [reflexivity |]. split; [exact Ha |]. split; [reflexivity |].
  unfold within1, cellOf; simpl. lia.
Qed.

(** X2 (seek food).  A blob that does not stand on food, while some food
    item lies on one of the eight cells around it and on the grid, always
    eats during its step: it moves onto a neighbouring cell that holds food,
    that item is taken out of the food list, the blob's counter is 0, and one
    random value is drawn. *)
Theorem seek_food (gridSize : Z) (b : Blob) (fd : list Food) (g : Rng) (f : Food) :
  cellOf b ∉ fd ->
  f ∈ fd -> within1 b f ->
  0 <= foodX f < gridSize -> 0 <= foodY f < gridSize ->
  exists b' i,
    stepBlob gridSize b fd g = Some (b', delete i fd, skip 1 g) /\
    fd !! i = Some (cellOf b') /\ fed b' /\ within1 b (cellOf b').
Proof. apply stepBlob_seeks. Qed.

Lemma seek_food_witness :
  exists b' i,
    stepBlob 100 (mkBlob 5 5 (Js.num 42)) [mkFood 9 9; mkFood 5 6] (constRng (drawOf 1 2))
    = Some (b', delete i [mkFood 9 9; mkFood 5 6], skip 1 (constRng (drawOf 1 2))) /\
    fed b'.
Proof.
  destruct (seek_food 100 (mkBlob 5 5 (Js.num 42)) [mkFood 9 9; mkFood 5 6]
              (constRng (drawOf 1 2)) (mkFood 5 6)) as (b' & i & Hs & _ & Hf & _).
  - intros H. apply list_elem_of_In in H. simpl in H.
    destruct H as [H | [H | []]]; discriminate.
  - apply list_elem_of_In. simpl. right. left. reflexivity.
  - unfold within1. simpl. split; discriminate.
  - simpl. split; [discriminate | reflexivity].
  - simpl. split; [discriminate | reflexivity].
  - exists b', i. split; [exact Hs | exact Hf].
Defined.

Lemma mapBlobs_far_food (gridSize : Z) (bs : list Blob) (fd : list Food) (g : Rng)
      (out : list Blob) (fd' : list Food) (g' : Rng) (f : Food) :
  mapBlobs gridSize bs fd g = Some (out, fd', g') ->
  f ∈ fd -> Forall (fun b => ~ within1 b f) bs -> f ∈ fd'.
Proof.
  revert fd g out fd' g'.
  induction bs as [| b bs IH]; intros fd g out fd' g' H Hin Hfar; simpl in H.
  - injection H as <- <- <-. exact Hin.
  - destruct (stepBlob gridSize b fd g) as [[[b1 f1] g1] |] eqn:Es; [| discriminate].
    destruct (mapBlobs gridSize bs f1 g1) as [[[o f2] g2] |] eqn:Em; [| discriminate].
    injection H as <- <- <-.
    inversion Hfar as [| ? ? Hb Hbs]; subst.
    apply (IH _ _ _ _ _ Em); [| exact Hbs].
    destruct (stepBlob_food _ _ _ _ _ _ _ Es) as [[-> _] | (Hp & _ & _)]; [exact Hin |].
    rewrite Hp in Hin. apply elem_of_cons in Hin. destruct Hin as [-> | Hin]; [| exact Hin].
    exfalso. apply Hb. destruct (stepBlob_near _ _ _ _ _ _ _ Es) as (Hx & Hy & _).
    unfold within1, cellOf; simpl. split; assumption.
Qed.

(** X3 (food out of reach is safe).  A food item that is not on the cell of
    any blob nor on one of the eight cells around it is still in the food
    list after the tick. *)
Theorem far_food_survives (gridSize : Z) (st : SimState) (g : Rng)
        (st' : SimState) (g' : Rng) (f : Food) :
  advance gridSize st g = Some (st', g') ->
  f ∈ food st ->
  Forall (fun b => ~ within1 b f) (blobs st) ->
  f ∈ food st'.
Proof.
  intros H Hin Hfar. destruct (advance_unfold _ _ _ _ _ H) as (mapped & Hm & _).
  eapply mapBlobs_far_food; eassumption.
Qed.

Lemma far_food_survives_witness :
  exists st' g',
    advance 100 (mkSim [mkFood 9 9] [mkBlob 5 5 (Js.num 3)]) (constRng (drawOf 1 2))
    = Some (st', g') /\ mkFood 9 9 ∈ food st'.
Proof.
  destruct (advance 100 (mkSim [mkFood 9 9] [mkBlob 5 5 (Js.num 3)])
              (constRng (drawOf 1 2))) as [[st' g'] |] eqn:E; [| discriminate E].
  exists st', g'. split; [reflexivity |].
  apply (far_food_survives 100 _ _ _ _ _ E).
  - apply list_elem_of_here.
  - constructor; [| constructor]. unfold within1; simpl. intros [H _]. apply H. reflexivity.
Defined.

Lemma filter_all {A : Type} (p : A -> bool) (l : list A) :
  Forall (fun a => p a = true) l -> List.filter p l = l.
Proof.
  induction 1 as [| a l Ha _ IH]; simpl; [reflexivity |]. rewrite Ha, IH. reflexivity.
Qed.

Lemma Forall2_Forall_r {A B : Type} (R : A -> B -> Prop) (P : A -> Prop) (Q : B -> Prop)
      (l : list A) (k : list B) :
  (forall a b, R a b -> P a -> Q b) -> Forall2 R l k -> Forall P l -> Forall Q k.
Proof.
  intros HR H. induction H as [| a b l k Hab _ IH]; intros Hall; [constructor |].
  inversion Hall; subst. constructor; [eapply HR; eassumption | apply IH; assumption].
Qed.

(** X4 (no early death).  When every counter is a number [n] with
    [0 <= n] and [n + 1 < 100], the tick keeps every blob: the new blob list
    has the blobs of the old one in the same order, each at most one cell
    away and either fed (counter 0) or one step hungrier. *)
Theorem young_blobs_are_kept (gridSize : Z) (st : SimState) (g : Rng)
        (st' : SimState) (g' : Rng) :
  Forall (fun b => exists n, stepsSinceMeal b = Js.num n /\
                             0 <= n /\ n + 1 < maxStepsWithoutFood)
         (blobs st) ->
  advance gridSize st g = Some (st', g') ->
  Forall2 (stepped gridSize) (blobs st) (blobs st').
Proof.
  intros Hyoung H. destruct (advance_unfold _ _ _ _ _ H) as (mapped & Hm & ->).
  pose proof (mapBlobs_stepped _ _ _ _ _ _ _ Hm) as Hst.
  rewrite filter_all; [exact Hst |].
  eapply Forall2_Forall_r; [| exact Hst | exact Hyoung].
  intros b b' [_ [Hf | Hs]] (n & Hn & _ & Hlt); [apply fed_survives; exact Hf |].
  unfold survives. rewrite Hs, Hn. simpl. apply Z.ltb_lt. exact Hlt.
Qed.

Lemma young_blobs_are_kept_witness :
  exists st' g',
    advance 100 (mkSim [mkFood 9 9] [mkBlob 5 5 (Js.num 98)]) (constRng (drawOf 1 2))
    = Some (st', g') /\ length (blobs st') = 1%nat.
Proof.
  destruct (advance 100 (mkSim [mkFood 9 9] [mkBlob 5 5 (Js.num 98)])
              (constRng (drawOf 1 2))) as [[st' g'] |] eqn:E; [| discriminate E].
  exists st', g'. split; [reflexivity |].
  assert (H : Forall2 (stepped 100) [mkBlob 5 5 (Js.num 98)] (blobs st')).
  { apply (young_blobs_are_kept 100 _ _ _ _ ) in E; [exact E |].
    constructor; [| constructor]. exists 98.
    split; [reflexivity |]. split; [discriminate | reflexivity]. }
  apply Forall2_length in H. symmetry. exact H.
Defined.

(** X5 (starving blobs).  When every counter is a number of at least 99 or
    is not a number, a blob outlives the tick only by eating: every blob of
    the new state has counter 0, and the blobs kept are as many as the food
    items eaten. *)
Theorem starving_blobs_must_eat (gridSize : Z) (st : SimState) (g : Rng)
        (st' : SimState) (g' : Rng) :
  Forall (hungerFrom (maxStepsWithoutFood - 1)) (blobs st) ->
  advance gridSize st g = Some (st', g') ->
  Forall fed (blobs st') /\
  (length (blobs st') + length (food st') = length (food st))%nat.
Proof.
  intros Hold H. destruct (advance_unfold _ _ _ _ _ H) as (mapped & Hm & ->).
  pose proof (mapBlobs_stepped _ _ _ _ _ _ _ Hm) as Hst.
  assert (Hout : Forall (fun b' => survives b' = true -> fed b') mapped).
  { eapply Forall2_Forall_r; [| exact Hst | exact Hold].
    intros b b' [_ [Hf | Hs]] Hb Hsv; [exact Hf |]. exfalso.
    unfold survives in Hsv. rewrite Hs in Hsv. unfold hungerFrom in Hb.
    destruct (stepsSinceMeal b) as [| | n]; simpl in Hsv; try discriminate.
    apply Z.ltb_lt in Hsv. unfold maxStepsWithoutFood in *. lia. }
  assert (Hfed : Forall fed (List.filter survives mapped)).
  { apply Forall_forall. intros b Hb. apply list_elem_of_In, filter_In in Hb.
    destruct Hb as [Hb Hsv]. rewrite Forall_forall in Hout.
    apply Hout; [apply list_elem_of_In; exact Hb | exact Hsv]. }
  split; [exact Hfed |].
  assert (Hm1 : Forall (fun b => stepsSinceMeal b <> Js.num (-1)) (blobs st)).
  { eapply Forall_impl; [exact Hold |]. simpl. intros b Hb E.
    unfold hungerFrom in Hb. rewrite E in Hb. unfold maxStepsWithoutFood in Hb. lia. }
  pose proof (mapBlobs_count _ _ _ _ _ _ _ Hm1 Hm) as Hc.
  rewrite <- (fedb_filter_survives mapped), (filter_fedb_all _ Hfed) in Hc. lia.
Qed.

Lemma starving_blobs_must_eat_witness :
  exists st' g',
    advance 100 (mkSim [mkFood 9 9] [mkBlob 5 5 (Js.num 99)]) (constRng (drawOf 1 2))
    = Some (st', g') /\ Forall fed (blobs st').
Proof.
  destruct (advance 100 (mkSim [mkFood 9 9] [mkBlob 5 5 (Js.num 99)])
              (constRng (drawOf 1 2))) as [[st' g'] |] eqn:E; [| discriminate E].
  exists st', g'. split; [reflexivity |].
  apply (starving_blobs_must_eat 100 _ _ _ _ ) in E; [exact (proj1 E) |].
  constructor; [| constructor]. unfold hungerFrom; simpl. discriminate.
Defined.

(** * The timer *)

Lemma advance_onGrid (gridSize : Z) (st : SimState) (g : Rng) (st' : SimState) (g' : Rng) :
  advance gridSize st g = Some (st', g') ->
  Forall (onGrid gridSize) (blobs st) -> Forall (onGrid gridSize) (blobs st').
Proof.
  intros H Hall. destruct (advance_unfold _ _ _ _ _ H) as (mapped & Hm & ->).
  pose proof (mapBlobs_near _ _ _ _ _ _ _ Hm) as Hn.
  assert (Hmapped : Forall (onGrid gridSize) mapped).
  { eapply Forall2_Forall_r; [| exact Hn | exact Hall].
    intros b b' (_ & _ & Hk) Hb. apply Hk, Hb. }
  apply Forall_forall. intros b Hb. apply list_elem_of_In, filter_In in Hb.
  rewrite Forall_forall in Hmapped. apply Hmapped, list_elem_of_In, Hb.
Qed.

Lemma runTicks_shrinks (gridSize : Z) (n : nat) :
  forall st g st' g',
    runTicks gridSize n st g = Some (st', g') ->
    sublist (food st') (food st) /\ (length (blobs st') <= length (blobs st))%nat.
Proof.
  induction n as [| n IH]; intros st g st' g' H; cbn [runTicks] in H.
  - injection H as <- <-. split; reflexivity.
  - destruct (advance gridSize st g) as [[st1 g1] |] eqn:E; [| discriminate].
    destruct (advance_shrinks _ _ _ _ _ E) as [Hs1 Hl1].
    destruct (IH _ _ _ _ H) as [Hs2 Hl2].
    split; [etransitivity; eassumption | lia].
Qed.

Lemma runTicks_total (gridSize : Z) (n : nat) :
  2 <= gridSize ->
  forall st g,
    Forall (onGrid gridSize) (blobs st) ->
    exists st' g', runTicks gridSize n st g = Some (st', g') /\
                   Forall (onGrid gridSize) (blobs st').
Proof.
  intros Hs. induction n as [| n IH]; intros st g Hall; cbn [runTicks].
  - exists st, g. split; [reflexivity | exact Hall].
  - destruct (advance_total gridSize st g Hs Hall) as (st1 & g1 & E). rewrite E.
    apply IH. eapply advance_onGrid; eassumption.
Qed.

Lemma runTicks_counters (gridSize : Z) (n : nat) :
  forall st g st' g',
    let numeric := fun b => exists m, stepsSinceMeal b = Js.num m /\ m < maxStepsWithoutFood in
    (n = O -> Forall numeric (blobs st)) ->
    runTicks gridSize n st g = Some (st', g') ->
    Forall numeric (blobs st').
Proof.
  induction n as [| n IH]; intros st g st' g' numeric H0 H; cbn [runTicks] in H.
  - injection H as <- <-. apply H0. reflexivity.
  - destruct (advance gridSize st g) as [[st1 g1] |] eqn:E; [| discriminate].
    apply (IH _ _ _ _ (fun _ => advance_counters _ _ _ _ _ E) H).
Qed.

(** X6 (the timer never fails).  On a grid of side at least 2, from any
    state whose blobs are on the grid, any number of ticks returns a state
    (the updater never throws); its blobs are on the grid, its food list is
    the first one with items taken out, there are no more blobs than at the
    start, and once a tick has run every counter is a number below 100. *)
Theorem ticks_never_fail (gridSize : Z) (n : nat) (st : SimState) (g : Rng) :
  2 <= gridSize ->
  Forall (onGrid gridSize) (blobs st) ->
  exists st' g',
    runTicks gridSize n st g = Some (st', g') /\
    Forall (onGrid gridSize) (blobs st') /\
    sublist (food st') (food st) /\
    (length (blobs st') <= length (blobs st))%nat /\
    (n <> O ->
     Forall (fun b => exists m, stepsSinceMeal b = Js.num m /\ m < maxStepsWithoutFood)
            (blobs st')).
Proof.
  intros Hs Hall.
  destruct (runTicks_total gridSize n Hs st g Hall) as (st' & g' & Hrun & Hgrid).
  exists st', g'. split; [exact Hrun |]. split; [exact Hgrid |].
  destruct (runTicks_shrinks _ _ _ _ _ _ Hrun) as [Hsub Hlen].
  split; [exact Hsub |]. split; [exact Hlen |].
  intros Hn. eapply (runTicks_counters gridSize n); [| exact Hrun].
  intros E. contradiction.
Qed.

Lemma ticks_never_fail_witness :
  exists st' g',
    runTicks 100 7 (mkSim [mkFood 9 9] [mkBlob 5 5 Js.undefined; mkBlob 8 9 (Js.num 3)])
             (constRng (drawOf 1 2)) = Some (st', g') /\
    (length (blobs st') <= 2)%nat.
Proof.
  destruct (ticks_never_fail 100 7
              (mkSim [mkFood 9 9] [mkBlob 5 5 Js.undefined; mkBlob 8 9 (Js.num 3)])
              (constRng (drawOf 1 2))) as (st' & g' & Hrun & _ & _ & Hlen & _).
  - discriminate.
  - repeat constructor.
  - exists st', g'. split; [exact Hrun | exact Hlen].
Defined.

Lemma runTicks_hunger (gridSize : Z) (n : nat) :
  forall st g st' g' k,
    runTicks gridSize n st g = Some (st', g') ->
    length (food st') = length (food st) ->
    Forall (hungerFrom k) (blobs st) ->
    Forall (hungerFrom (k + Z.of_nat n)) (blobs st').
Proof.
  induction n as [| n IH]; intros st g st' g' k H Hlen Hall; cbn [runTicks] in H.
  - injection H as <- <-. rewrite Z.add_0_r. exact Hall.
  - destruct (advance gridSize st g) as [[st1 g1] |] eqn:E; [| discriminate].
    destruct (advance_shrinks _ _ _ _ _ E) as [Hs1 _].
    destruct (runTicks_shrinks _ _ _ _ _ _ H) as [Hs2 _].
    apply sublist_length in Hs1, Hs2.
    replace (k + Z.of_nat (S n)) with ((k + 1) + Z.of_nat n) by lia.
    apply (IH _ _ _ _ _ H); [lia |].
    destruct (advance_unfold _ _ _ _ _ E) as (mapped & Hm & ->).
    assert (Hno : Forall2 (fun b b' => stepsSinceMeal b' = Js.add1 (stepsSinceMeal b))
                          (blobs st) mapped)
      by (eapply mapBlobs_nobody_ate; [exact Hm | lia]).
    assert (Hmapped : Forall (hungerFrom (k + 1)) mapped).
    { eapply Forall2_Forall_r; [| exact Hno | exact Hall].
      intros b b' Hs Hb. unfold hungerFrom in *. rewrite Hs.
      destruct (stepsSinceMeal b); simpl; try exact I. lia. }
    apply Forall_forall. intros b Hb. apply list_elem_of_In, filter_In in Hb.
    rewrite Forall_forall in Hmapped. apply Hmapped, list_elem_of_In, Hb.
Qed.

(** X7 (a hundred ticks without a meal).  On a grid of side at least 2,
    from a state whose blobs are on the grid and whose counters are not
    negative numbers, a run of 100 ticks or more returns, and if no food
    item was eaten during the run (the food list has kept its length) then
    no blob is left. *)
Theorem no_meal_no_blobs (gridSize : Z) (n : nat) (st : SimState) (g : Rng) :
  2 <= gridSize ->
  (Z.to_nat maxStepsWithoutFood <= n)%nat ->
  Forall (onGrid gridSize) (blobs st) ->
  Forall (hungerFrom 0) (blobs st) ->
  exists st' g',
    runTicks gridSize n st g = Some (st', g') /\
    (length (food st') = length (food st) -> blobs st' = []).
Proof.
  intros Hs Hn Hgrid Hcnt.
  destruct (runTicks_total gridSize n Hs st g Hgrid) as (st' & g' & Hrun & _).
  exists st', g'. split; [exact Hrun |]. intros Hlen.
  pose proof (runTicks_hunger _ _ _ _ _ _ 0 Hrun Hlen Hcnt) as Hh.
  assert (Hnum : Forall (fun b => exists m, stepsSinceMeal b = Js.num m /\
                                            m < maxStepsWithoutFood) (blobs st')).
  { eapply (runTicks_counters gridSize n); [| exact Hrun].
    intros E. subst n. unfold maxStepsWithoutFood in Hn. simpl in Hn. lia. }
  destruct (blobs st') as [| b rest]; [reflexivity |]. exfalso.
  inversion Hh as [| ? ? Hb _]; inversion Hnum as [| ? ? (m & Hm & Hlt) _]; subst.
  unfold hungerFrom in Hb. rewrite Hm in Hb. unfold maxStepsWithoutFood in *. lia.
Qed.

Lemma no_meal_no_blobs_witness :
  exists st' g',
    runTicks 100 100 (mkSim [] [mkBlob 5 5 (Js.num 0)]) (constRng (drawOf 1 2))
    = Some (st', g') /\
    (length (food st') = length (food (mkSim [] [mkBlob 5 5 (Js.num 0)])) -> blobs st' = []).
Proof.
  apply (no_meal_no_blobs 100 100 (mkSim [] [mkBlob 5 5 (Js.num 0)]) (constRng (drawOf 1 2))).
  - discriminate.
  - apply le_n.
  - repeat constructor.
  - constructor; [| constructor]. unfold hungerFrom; simpl. discriminate.
Defined.

(** * The whole program *)





(** * More about seeding *)

(** X9 (one seeding loop, written twice).  From the same grid and the same
    random values [generateFood] returns the cells of the blobs that
    [generateBlobs] returns, in the same order, and leaves the random source
    where [generateBlobs] leaves it; it throws exactly when [generateBlobs]
    does. *)
Theorem generateFood_follows_generateBlobs (gridSize : Z) (fuel : nat) (grid : Grid) (g : Rng) :
  generateFood gridSize fuel grid g =
  match generateBlobs gridSize fuel grid g with
  | Some (bs, g') => Some (map cellOf bs, g')
  | None => None
  end.
Proof.
  unfold generateFood, generateBlobs.
  pose proof (foodLoop_blobLoop gridSize grid fuel [] 0 g) as H. simpl map in H.
  rewrite H. destruct (blobLoop gridSize fuel grid [] 0 g) as [[[bs att] g'] |]; reflexivity.
Qed.

Lemma soilCells_elem (gridSize : Z) (grid : Grid) (x y : Z) :
  0 <= x < gridSize -> 0 <= y < gridSize -> onSoil grid x y ->
  mkFood x y ∈ soilCells gridSize grid.
Proof.
  intros Hx Hy Hs. apply list_elem_of_In. unfold soilCells.
  apply in_flat_map. exists y. split; [apply list_elem_of_In, elem_of_seqZ; lia |].
  apply in_flat_map. exists x. split; [apply list_elem_of_In, elem_of_seqZ; lia |].
  unfold onSoil in Hs. rewrite Hs. left. reflexivity.
Qed.

Lemma seeded_bounded (gridSize : Z) (grid : Grid) (bs : list Blob) :
  seeded gridSize grid bs -> (length bs <= length (soilCells gridSize grid))%nat.
Proof.
  intros (Hall & Hnd & _). rewrite <- (length_map cellOf bs).
  apply submseteq_length, NoDup_submseteq; [exact Hnd |].
  intros f Hf. apply list_elem_of_In, in_map_iff in Hf.
  destruct Hf as (b & <- & Hb). apply list_elem_of_In in Hb.
  rewrite Forall_forall in Hall. destruct (Hall b Hb) as (Hsoil & Hgrid & _).
  apply inBounds_spec in Hgrid. apply soilCells_elem; tauto.
Qed.

(** X10 (no more positions than soil cells).  On a grid that has its
    [gridSize] rows both seeding loops return at most as many positions as
    the grid has soil cells within the square of side [gridSize]; when
    there are fewer than 100 such cells, both loops make all 10000
    attempts before they return. *)
Theorem seeding_bounded_by_soil (gridSize : Z) (grid : Grid) (fuel : nat) (g : Rng) :
  0 < gridSize -> (Z.to_nat gridSize <= length grid)%nat ->
  (Z.to_nat maxAttempts < fuel)%nat ->
  exists fd bs att1 att2 g1 g2,
    foodLoop gridSize fuel grid [] 0 g = Some (fd, att1, g1) /\
    blobLoop gridSize fuel grid [] 0 g = Some (bs, att2, g2) /\
    (length fd <= length (soilCells gridSize grid))%nat /\
    (length bs <= length (soilCells gridSize grid))%nat /\
    ((length (soilCells gridSize grid) < initialBlobCount)%nat ->
     att1 = maxAttempts /\ att2 = maxAttempts).
Proof.
  intros Hpos Hrows Hfuel.
  destruct (generateBlobs_spec gridSize grid fuel g Hpos Hrows Hfuel)
    as (bs & att & Hrun & Hseeded & _ & Hstop).
  pose proof (foodLoop_blobLoop gridSize grid fuel [] 0 g) as Hf.
  simpl map in Hf. rewrite Hrun in Hf.
  pose proof (seeded_bounded _ _ _ Hseeded) as Hb.
  exists (map cellOf bs), bs, att, att. do 2 eexists.
  split; [exact Hf |]. split; [exact Hrun |].
  split; [rewrite length_map; exact Hb |]. split; [exact Hb |].
  intros Hfew. destruct Hstop as [Hfull | Hmax]; [lia | split; exact Hmax].
Qed.

Lemma seeding_bounded_by_soil_witness :
  exists fd att g1,
    foodLoop 3 seedFuel [[Some water; Some soil; Some sand];
                         [Some water; Some water; Some water];
                         [Some sand; Some soil; Some water]] [] 0 (constRng (drawOf 1 2))
    = Some (fd, att, g1) /\ (length fd <= 2)%nat /\ att = maxAttempts.
Proof.
  destruct (seeding_bounded_by_soil 3
              [[Some water; Some soil; Some sand];
               [Some water; Some water; Some water];
               [Some sand; Some soil; Some water]] seedFuel (constRng (drawOf 1 2)))
    as (fd & bs & att1 & att2 & g1 & g2 & Hf & _ & Hlen & _ & Hatt).
  - reflexivity.
  - apply le_n.
  - apply Nat.lt_succ_diag_r.
  - exists fd, att1, g1. split; [exact Hf |]. split; [exact Hlen |].
    apply Hatt. unfold initialBlobCount. simpl. lia.
Defined.

(** * More about the shuffle *)

Lemma insert_swap_head (l : list Dir) (i : nat) (a x : Dir) :
  l !! i = Some a -> a :: <[i := x]> l ≡ₚ x :: l.
Proof.
  revert i. induction l as [| c l IH]; intros i Hi; [discriminate |].
  destruct i as [| i]; simpl in *.
  - injection Hi as ->. apply perm_swap.
  - rewrite (perm_swap c a), (IH i Hi). apply perm_swap.
Qed.

Lemma swap_Permutation (l : list Dir) (i r : nat) : swap l i r ≡ₚ l.
Proof.
  unfold swap.
  destruct (l !! i) as [a |] eqn:Ei; [| reflexivity].
  destruct (l !! r) as [b |] eqn:Er; [| reflexivity].
  revert i r Ei Er. induction l as [| c l IH]; intros i r Ei Er; [discriminate |].
  destruct i as [| i]; destruct r as [| r]; simpl in *.
  - injection Ei as ->. reflexivity.
  - injection Ei as ->. apply insert_swap_head. exact Er.
  - injection Er as ->. apply insert_swap_head. exact Ei.
  - rewrite (IH i r Ei Er). reflexivity.
Qed.

Lemma shuffleFrom_spec (i : nat) :
  forall l g, fst (shuffleFrom i l g) ≡ₚ l /\
              snd (shuffleFrom i l g) = skip (N.of_nat i) g.
Proof.
  induction i as [| i IH]; intros l g; cbn [shuffleFrom].
  - split; [reflexivity | symmetry; apply skip_0].
  - pose proof (randomBelow_rng (Z.of_nat (S i) + 1) g) as Hg.
    destruct (randomBelow (Z.of_nat (S i) + 1) g) as [r g1]. simpl in Hg. subst g1.
    destruct (IH (swap l (S i) (Z.to_nat r)) (skip 1 g)) as [Hp Hs].
    split; [rewrite Hp; apply swap_Permutation |].
    rewrite Hs, skip_skip. f_equal. lia.
Qed.

(** X11 (the shuffle).  The loop that shuffles [directions] returns a
    rearrangement of the array it was given, whatever the random values, and
    draws one value for each index from the last down to 1. *)
Theorem shuffle_permutes (l : list Dir) (g : Rng) :
  fst (shuffle l g) ≡ₚ l /\
  snd (shuffle l g) = skip (N.of_nat (length l - 1)) g.
Proof. apply shuffleFrom_spec. Qed.

(** * The shape of the terrain *)

(** ** What a child can be *)

Lemma childOf_cases (type : Terrain) (chain : Z) (g : Rng) :
  fst (childOf type chain g) = (type, chain + 1) \/
  (type = soil /\ chain <= 200 /\ fst (childOf type chain g) = (sand, 1)) \/
  (type = soil /\ 201 <= chain /\ fst (childOf type chain g) = (sand, 1)) \/
  (type = sand /\ fst (childOf type chain g) = (water, 1)).
Proof.
  destruct type.
  - destruct (Z_le_gt_dec 201 chain) as [Hc | Hc].
    + right. right. left. rewrite childOf_soil_exhausted by exact Hc.
      repeat split; [exact Hc].
    + unfold childOf. destruct (Math_random g) as [r g1].
      destruct (Qltb r (soilProbability chain)); [left; reflexivity |].
      right. left. repeat split. lia.
  - unfold childOf. destruct (Math_random g) as [r g1].
    destruct (Qltb r (sandProbability chain)); [left; reflexivity |].
    right. right. right. split; reflexivity.
  - left. reflexivity.
Qed.

(** A child is never of an earlier kind than its parent. *)
Lemma childOf_rank (type : Terrain) (chain : Z) (g : Rng) :
  rank type <= rank (fst (fst (childOf type chain g))).
Proof.
  destruct (childOf_cases type chain g) as [E | [(-> & _ & E) | [(-> & _ & E) | (-> & E)]]];
    rewrite E; simpl; lia.
Qed.

(** The chain and distance bounds pass from a cell to its children. *)
Lemma childOf_chainBound (gridSize : Z) (type : Terrain) (chain x y : Z) (g : Rng)
      (d : Dir) (t : Terrain) (c : Z) :
  chainBound gridSize type chain x y ->
  d ∈ directions0 ->
  (t, c) = fst (childOf type chain g) ->
  chainBound gridSize t c (x + dx d) (y + dy d).
Proof.
  intros Hb Hd E.
  assert (Hstep : fromCentre gridSize (x + dx d) (y + dy d) <= fromCentre gridSize x y + 1).
  { apply list_elem_of_In in Hd. unfold fromCentre.
    simpl in Hd. destruct Hd as [<- | [<- | [<- | [<- | [<- | [<- | [<- | [<- | []]]]]]]]];
      simpl; lia. }
  assert (Hsand : d ∈ directions0 -> type = sand ->
                  21 <= chain -> fst (childOf type chain g) = (water, 1)).
  { intros _ -> Hc. rewrite childOf_sand_exhausted by exact Hc. reflexivity. }
  destruct (childOf_cases type chain g) as [E1 | [(-> & Hc & E1) | [(-> & Hc & E1) | (-> & E1)]]];
    rewrite E1 in E; injection E as -> ->.
  - destruct type; unfold chainBound in *; [| | exact I].
    + destruct (Z_le_gt_dec 201 chain) as [Hc | Hc].
      * rewrite childOf_soil_exhausted in E1 by exact Hc. discriminate.
      * lia.
    + destruct (Z_le_gt_dec 21 chain) as [Hc | Hc].
      * rewrite (Hsand Hd eq_refl Hc) in E1. discriminate.
      * lia.
  - unfold chainBound in *. lia.
  - unfold chainBound in *. lia.
  - exact I.
Qed.

Lemma chainBound_cellBound (gridSize : Z) (t : Terrain) (c x y : Z) :
  chainBound gridSize t c x y -> cellBound gridSize t x y.
Proof. destruct t; simpl; [lia | lia | tauto]. Qed.

(** ** Paths *)

Lemma reach_mono (gridSize : Z) (grid grid' : Grid) (k k' x y : Z) :
  (forall nx ny t, inBounds gridSize nx ny = true ->
                   gridAt grid nx ny = Some t -> gridAt grid' nx ny = Some t) ->
  1 <= gridSize -> k <= k' ->
  reach gridSize grid k x y -> reach gridSize grid' k' x y.
Proof.
  intros Hext Hsize Hk H. induction H as [t Ht Hr | x y d t _ IH Hd Hb Ht Hr].
  - apply (reach_centre _ _ _ t); [| lia].
    apply Hext; [apply centre_inBounds; exact Hsize | exact Ht].
  - apply (reach_step _ _ _ x y d t); [exact IH | exact Hd | exact Hb | | lia].
    apply Hext; assumption.
Qed.

(** ** The inner loop, cell by cell *)

Lemma born_cons (gridSize : Z) (d : Dir) (ds : list Dir) (x y : Z) (type : Terrain)
      (chain : Z) (e : Cell) :
  born gridSize ds x y type chain e -> born gridSize (d :: ds) x y type chain e.
Proof.
  intros (d' & g & Hd & H). exists d', g. split; [apply elem_of_cons; right; exact Hd | exact H].
Qed.

Lemma traced_cons (gridSize : Z) (d : Dir) (ds : list Dir) (x y : Z) (type : Terrain)
      (chain : Z) (st st' : GenState) :
  traced gridSize ds x y type chain st st' ->
  traced gridSize (d :: ds) x y type chain st st'.
Proof.
  intros (Hwf & Hkeep & Hfr & Hnew & Hcell & Hdir).
  split; [exact Hwf |]. split; [exact Hkeep |]. split; [exact Hfr |].
  split; [| split; [| exact Hdir]].
  - intros e He. destruct (Hnew e He) as [Hold | [Hb Hg]]; [left; exact Hold |].
    right. split; [apply born_cons; exact Hb | exact Hg].
  - intros nx ny t Hb Hg. destruct (Hcell nx ny t Hb Hg) as [Hold | (e & He & Hborn & Hxy)];
      [left; exact Hold |].
    right. exists e. split; [exact He |]. split; [apply born_cons; exact Hborn | exact Hxy].
Qed.

Lemma expandNeighbors_traced (gridSize : Z) (ds : list Dir) (x y : Z)
      (type : Terrain) (chain : Z) :
  forall st,
    wfGrid (Z.to_nat gridSize) (genGrid st) ->
    traced gridSize ds x y type chain st (expandNeighbors gridSize ds x y type chain st).
Proof.
  induction ds as [| d ds IH]; intros st Hwf; cbn [expandNeighbors].
  - split; [exact Hwf |]. split; [tauto |]. split; [tauto |].
    split; [intros e He; left; exact He |]. split; [| reflexivity].
    intros nx ny t _ Hg. left. exact Hg.
  - destruct (inBounds gridSize (x + dx d) (y + dy d)) eqn:Eb; cbn [negb];
      [| apply traced_cons, IH, Hwf].
    destruct (gridAt (genGrid st) (x + dx d) (y + dy d)) as [t0 |] eqn:Eg;
      [apply traced_cons, IH, Hwf |].
    destruct (childOf type chain (genRng st)) as [[nt nc] g'] eqn:Ec.
    set (nx := x + dx d) in *. set (ny := y + dy d) in *.
    set (new := mkCell nx ny nt nc).
    set (st1 := mkGen _ _ _ _ _).
    destruct (inBounds_nat _ _ _ Eb) as (Hx0 & Hy0 & Hxn & Hyn).
    assert (Hwf1 : wfGrid (Z.to_nat gridSize) (genGrid st1))
      by (apply wfGrid_gridSet; exact Hwf).
    assert (Hsame : gridAt (genGrid st1) nx ny = Some nt)
      by (simpl; eapply gridAt_gridSet_same; eassumption).
    assert (Hother : forall a b, inBounds gridSize a b = true -> (a <> nx \/ b <> ny) ->
                                 gridAt (genGrid st1) a b = gridAt (genGrid st) a b).
    { intros a b Hab Hne. simpl. apply gridAt_gridSet_other.
      destruct (inBounds_nat _ _ _ Hab) as (Ha0 & Hb0 & _ & _). lia. }
    assert (Hborn : born gridSize (d :: ds) x y type chain new).
    { exists d, (genRng st). split; [apply list_elem_of_here |].
      split; [reflexivity |]. split; [reflexivity |]. split; [exact Eb |].
      rewrite Ec. reflexivity. }
    destruct (IH st1 Hwf1) as (Hwf' & Hkeep & Hfr & Hnew & Hcell & Hdir).
    set (st' := expandNeighbors gridSize ds x y type chain st1) in *.
    assert (Hin : new ∈ genFrontier st').
    { apply Hfr. simpl. apply elem_of_app. right. apply list_elem_of_here. }
    split; [exact Hwf' |]. split; [| split; [| split; [| split; [| exact Hdir]]]].
    + intros a b t Hab Hg. apply Hkeep; [exact Hab |]. rewrite Hother; [exact Hg | exact Hab |].
      destruct (decide (a = nx)) as [-> | Ha]; [| left; exact Ha].
      destruct (decide (b = ny)) as [-> | Hb]; [| right; exact Hb].
      rewrite Eg in Hg. discriminate.
    + intros e He. apply Hfr. simpl. apply elem_of_app. left. exact He.
    + intros e He. destruct (Hnew e He) as [Hold | [Hb Hg]].
      * simpl in Hold. apply elem_of_app in Hold. destruct Hold as [Hold | Hold];
          [left; exact Hold |].
        apply list_elem_of_singleton in Hold. subst e. right.
        split; [exact Hborn |]. apply Hkeep; [exact Eb | exact Hsame].
      * right. split; [apply born_cons; exact Hb | exact Hg].
    + intros a b t Hab Hg.
      destruct (Hcell a b t Hab Hg) as [Hold | (e & He & Hb & Hxy)].
      * destruct (decide (a = nx /\ b = ny)) as [[-> ->] | Hne].
        -- right. exists new. split; [exact Hin |]. split; [exact Hborn |].
           simpl. split; [reflexivity |]. split; [reflexivity |]. congruence.
        -- left. rewrite Hother in Hold; [exact Hold | exact Hab | lia].
      * right. exists e. split; [exact He |]. split; [apply born_cons; exact Hb | exact Hxy].
Qed.

(** ** The second invariant of the outer loop *)

Lemma born_directions (gridSize : Z) (ds : list Dir) (x y : Z) (type : Terrain)
      (chain : Z) (e : Cell) :
  (forall d, d ∈ ds -> d ∈ directions0) ->
  born gridSize ds x y type chain e ->
  exists d g,
    d ∈ directions0 /\ cellX e = x + dx d /\ cellY e = y + dy d /\
    inBounds gridSize (cellX e) (cellY e) = true /\
    (cellType e, cellChain e) = fst (childOf type chain g).
Proof.
  intros Hds (d & g & Hd & H). exists d, g. split; [apply Hds; exact Hd | exact H].
Qed.

Lemma growStep_landInv (gridSize : Z) (st st' : GenState) :
  1 <= gridSize -> landInv gridSize st ->
  growStep gridSize st = Some (Some st') -> landInv gridSize st'.
Proof.
  intros Hsize (Hwf & Hcentre & Hdirs & Hfront & Hcells) H. unfold growStep in H.
  destruct (0 <? Z.of_nat (length (genFrontier st))); [| discriminate].
  destruct (randomBelow (Z.of_nat (length (genFrontier st))) (genRng st)) as [idx g1].
  destruct (genFrontier st !! Z.to_nat idx) as [cur |] eqn:Hcur; [| discriminate].
  unfold shuffle in H.
  pose proof (shuffleFrom_spec (length (genDirections st) - 1) (genDirections st) g1)
    as [Hperm _].
  destruct (shuffleFrom (length (genDirections st) - 1) (genDirections st) g1)
    as [dirs' g2]. simpl in Hperm.
  injection H as <-.
  set (st0 := mkGen (genGrid st) (genChain st)
                    (delete (Z.to_nat idx) (genFrontier st)) dirs' g2).
  destruct (expandNeighbors_traced gridSize dirs' (cellX cur) (cellY cur)
              (cellType cur) (cellChain cur) st0 Hwf)
    as (Hwf' & Hkeep & Hfr & Hnew & Hcell & Hdir).
  set (st' := expandNeighbors gridSize dirs' _ _ _ _ st0) in *.
  assert (Hds : forall d, d ∈ dirs' -> d ∈ directions0).
  { intros d Hd. rewrite Hperm, Hdirs in Hd. exact Hd. }
  assert (Hcurin : cur ∈ genFrontier st) by (eapply list_elem_of_lookup_2; exact Hcur).
  destruct (Hfront cur Hcurin) as (Hcb & Hcg & Hcc).
  assert (Hold : forall e, e ∈ genFrontier st0 -> e ∈ genFrontier st).
  { intros e He. simpl in He. eapply elem_of_sublist; [exact He | apply sublist_delete]. }
  assert (Hchild : forall e, born gridSize dirs' (cellX cur) (cellY cur)
                                  (cellType cur) (cellChain cur) e ->
             inBounds gridSize (cellX e) (cellY e) = true /\
             chainBound gridSize (cellType e) (cellChain e) (cellX e) (cellY e) /\
             rank (cellType cur) <= rank (cellType e) /\
             exists d, d ∈ directions0 /\ cellX e = cellX cur + dx d /\
                       cellY e = cellY cur + dy d).
  { intros e He. destruct (born_directions _ _ _ _ _ _ _ Hds He)
      as (d & g & Hd & Hx & Hy & Hb & Hk).
    split; [exact Hb |]. split; [| split].
    - rewrite Hx, Hy. eapply childOf_chainBound; [exact Hcc | exact Hd | exact Hk].
    - pose proof (childOf_rank (cellType cur) (cellChain cur) g) as Hr.
      rewrite <- Hk in Hr. exact Hr.
    - exists d. split; [exact Hd | split; assumption]. }
  split; [exact Hwf' |]. split; [| split; [| split]].
  - apply Hkeep; [apply centre_inBounds; exact Hsize | exact Hcentre].
  - rewrite Hdir. simpl. rewrite Hperm. exact Hdirs.
  - intros e He. destruct (Hnew e He) as [Heold | [Hb Hg]].
    + destruct (Hfront e (Hold e Heold)) as (Hb & Hg & Hc).
      split; [exact Hb |]. split; [apply Hkeep; assumption | exact Hc].
    + destruct (Hchild e Hb) as (Hbb & Hc & _). split; [exact Hbb |]. split; assumption.
  - intros x y t Hb Hg.
    destruct (Hcell x y t Hb Hg) as [Hgold | (e & He & Hborn & <- & <- & <-)].
    + destruct (Hcells x y t Hb Hgold) as [Hr Hc]. split; [| exact Hc].
      eapply reach_mono; [exact Hkeep | exact Hsize | apply Z.le_refl | exact Hr].
    + destruct (Hchild e Hborn) as (_ & Hc & Hrank & d & Hd & Hx & Hy).
      split; [| eapply chainBound_cellBound; exact Hc].
      destruct (Hcells _ _ _ Hcb Hcg) as [Hr _].
      assert (Hr' : reach gridSize (genGrid st') (rank (cellType e)) (cellX cur) (cellY cur))
        by (eapply reach_mono; [exact Hkeep | exact Hsize | exact Hrank | exact Hr]).
      rewrite Hx, Hy in Hb, Hg |- *.
      eapply reach_step; [exact Hr' | exact Hd | exact Hb | exact Hg | apply Z.le_refl].
Qed.

Lemma growLoop_landInv (gridSize : Z) :
  1 <= gridSize ->
  forall (fuel : nat) (st st' : GenState),
    landInv gridSize st -> growLoop gridSize fuel st = Some st' -> landInv gridSize st'.
Proof.
  intros Hsize fuel. induction fuel as [| fuel IH]; intros st st' Hinv H; [discriminate |].
  cbn [growLoop] in H.
  destruct (growStep gridSize st) as [[st1 |] |] eqn:E; [| discriminate |].
  - apply (IH st1 st'); [| exact H]. eapply growStep_landInv; eassumption.
  - injection H as <-. exact Hinv.
Qed.

Lemma genInit_landInv (gridSize : Z) (g : Rng) :
  1 <= gridSize -> landInv gridSize (genInit gridSize g).
Proof.
  intros Hsize. set (n := Z.to_nat gridSize).
  pose proof (centre_inBounds gridSize Hsize) as Hc.
  destruct (inBounds_nat _ _ _ Hc) as (Hc0 & _ & Hcn & _).
  assert (Hwf0 : wfGrid n (replicate n (replicate n (@None Terrain))))
    by apply wfGrid_replicate.
  assert (Hsame : gridAt (genGrid (genInit gridSize g)) (gridSize / 2) (gridSize / 2)
                  = Some soil).
  { simpl. eapply gridAt_gridSet_same; eassumption. }
  assert (Hzero : fromCentre gridSize (gridSize / 2) (gridSize / 2) = 0).
  { unfold fromCentre. rewrite Z.sub_diag. reflexivity. }
  split; [simpl; apply wfGrid_gridSet; exact Hwf0 |].
  split; [exact Hsame |]. split; [reflexivity |]. split.
  - intros e He. simpl in He. apply list_elem_of_singleton in He. subst e. simpl.
    split; [exact Hc |]. split; [exact Hsame |]. rewrite Hzero. lia.
  - intros x y t Hb Hg.
    destruct (decide (x = gridSize / 2 /\ y = gridSize / 2)) as [[-> ->] | Hne].
    + rewrite Hsame in Hg. injection Hg as <-. split.
      * apply (reach_centre _ _ _ soil); [exact Hsame | simpl; lia].
      * simpl. rewrite Hzero. lia.
    + exfalso. simpl in Hg. rewrite gridAt_gridSet_other in Hg.
      * rewrite gridAt_replicate in Hg. discriminate.
      * destruct (inBounds_nat _ _ _ Hb) as (Hx0 & Hy0 & _ & _). lia.
Qed.

(** [generateGrid] returns a grid that is full and satisfies the second
    invariant. *)
Lemma generateGrid_land (gridSize : Z) (fuel : nat) (g : Rng) :
  1 <= gridSize -> (Z.to_nat (gridSize * gridSize) < fuel)%nat ->
  exists st,
    generateGrid gridSize fuel g = Some (genGrid st, genRng st) /\
    landInv gridSize st /\
    (forall x y, inBounds gridSize x y = true -> assigned (genGrid st) x y).
Proof.
  intros Hsize Hfuel.
  destruct (genInit_inv gridSize g Hsize) as [Hinv0 Hm0].
  destruct (growLoop_inv gridSize Hsize fuel (genInit gridSize g) Hinv0)
    as (st & Hrun & (_ & Hcentre & _ & Hclosed) & Hempty); [lia |].
  exists st. split; [unfold generateGrid; rewrite Hrun; reflexivity |]. split.
  - eapply growLoop_landInv; [exact Hsize | apply genInit_landInv; exact Hsize | exact Hrun].
  - apply closed_everywhere; [exact Hsize | exact Hcentre |].
    intros x y Hb Ha. destruct (Hclosed x y Hb Ha) as [(c & Hc & _) | Hc]; [| exact Hc].
    rewrite Hempty in Hc. inversion Hc.
Qed.

(** X12 (the land is in one piece).  For every grid side of at least 1 and
    every random source the grid returned by [generateGrid] has soil at its
    start cell, every soil cell is joined to the start cell by a path of
    neighbouring soil cells, and every sand cell by a path of neighbouring
    cells that are soil or sand: no soil lies behind sand or water, and no
    sand behind water. *)
Theorem land_in_one_piece (gridSize : Z) (fuel : nat) (g : Rng) :
  1 <= gridSize -> (Z.to_nat (gridSize * gridSize) < fuel)%nat ->
  exists grid g',
    generateGrid gridSize fuel g = Some (grid, g') /\
    gridAt grid (gridSize / 2) (gridSize / 2) = Some soil /\
    forall x y t, 0 <= x < gridSize -> 0 <= y < gridSize ->
                  gridAt grid x y = Some t ->
                  reach gridSize grid (rank t) x y.
Proof.
  intros Hsize Hfuel.
  destruct (generateGrid_land gridSize fuel g Hsize Hfuel)
    as (st & Hgen & (_ & Hcentre & _ & _ & Hcells) & _).
  exists (genGrid st), (genRng st). split; [exact Hgen |]. split; [exact Hcentre |].
  intros x y t Hx Hy Hg.
  apply (Hcells x y t); [apply inBounds_spec; split; assumption | exact Hg].
Qed.

Lemma land_in_one_piece_witness :
  exists grid g',
    generateGrid 100 genFuel programRun = Some (grid, g') /\
    gridAt grid (100 / 2) (100 / 2) = Some soil.
Proof.
  destruct (land_in_one_piece 100 genFuel programRun) as (grid & g' & Hgen & Hc & _).
  - discriminate.
  - apply Nat.lt_succ_diag_r.
  - exists grid, g'. split; [exact Hgen | exact Hc].
Defined.

(** X13 (how far the land goes).  For every grid side of at least 1 and
    every random source, in the grid returned by [generateGrid] no soil cell
    is more than 200 king's moves from the start cell and no sand cell more
    than 221: every cell farther away is water. *)
Theorem land_is_bounded (gridSize : Z) (fuel : nat) (g : Rng) :
  1 <= gridSize -> (Z.to_nat (gridSize * gridSize) < fuel)%nat ->
  exists grid g',
    generateGrid gridSize fuel g = Some (grid, g') /\
    forall x y, 0 <= x < gridSize -> 0 <= y < gridSize ->
      (gridAt grid x y = Some soil -> fromCentre gridSize x y <= 200) /\
      (gridAt grid x y = Some sand -> fromCentre gridSize x y <= 221) /\
      (221 < fromCentre gridSize x y -> gridAt grid x y = Some water).
Proof.
  intros Hsize Hfuel.
  destruct (generateGrid_land gridSize fuel g Hsize Hfuel)
    as (st & Hgen & (_ & _ & _ & _ & Hcells) & Hall).
  exists (genGrid st), (genRng st). split; [exact Hgen |].
  intros x y Hx Hy.
  assert (Hb : inBounds gridSize x y = true) by (apply inBounds_spec; split; assumption).
  split; [| split].
  - intros Hg. apply (Hcells x y soil Hb Hg).
  - intros Hg. apply (Hcells x y sand Hb Hg).
  - intros Hfar. specialize (Hall x y Hb). unfold assigned in Hall.
    destruct (gridAt (genGrid st) x y) as [t |] eqn:Hg; [| congruence].
    destruct (Hcells x y t Hb Hg) as [_ Hc].
    destruct t; simpl in Hc; [lia | lia | reflexivity].
Qed.

Lemma land_is_bounded_witness :
  exists grid g',
    generateGrid 500 (S (Z.to_nat (500 * 500))) (constRng (drawOf 0 1)) = Some (grid, g') /\
    gridAt grid 10 250 = Some water.
Proof.
  destruct (land_is_bounded 500 (S (Z.to_nat (500 * 500))) (constRng (drawOf 0 1)))
    as (grid & g' & Hgen & Hfar).
  - discriminate.
  - apply Nat.lt_succ_diag_r.
  - exists grid, g'. split; [exact Hgen |].
    destruct (Hfar 10 250) as (_ & _ & Hw).
    + split; [discriminate | reflexivity].
    + split; [discriminate | reflexivity].
    + apply Hw. reflexivity.
Defined.

(** * The number of turns of the generation loop *)

Lemma full_grid_holes (gridSize : Z) (grid : Grid) :
  wfGrid (Z.to_nat gridSize) grid ->
  (forall x y, inBounds gridSize x y = true -> assigned grid x y) ->
  holes grid = O.
Proof.
  intros [Hlen Hrows] Hall.
  assert (Hrow0 : forall j row, grid !! j = Some row -> holesRow row = O).
  { intros j row Hj.
    assert (Hjn : (j < Z.to_nat gridSize)%nat)
      by (rewrite <- Hlen; eapply lookup_lt_Some; exact Hj).
    unfold holesRow.
    destruct (List.filter isHole row) as [| c rest] eqn:Ef; [reflexivity |].
    exfalso.
    assert (Hin : In c (List.filter isHole row)) by (rewrite Ef; left; reflexivity).
    apply filter_In in Hin. destruct Hin as [Hin Hc].
    destruct c; [discriminate |].
    apply list_elem_of_In, list_elem_of_lookup_1 in Hin. destruct Hin as [i Hi].
    assert (Hil : (i < Z.to_nat gridSize)%nat).
    { rewrite Forall_forall in Hrows.
      rewrite <- (Hrows row (list_elem_of_lookup_2 _ _ _ Hj)).
      eapply lookup_lt_Some. exact Hi. }
    apply (Hall (Z.of_nat i) (Z.of_nat j)); [apply inBounds_spec; lia |].
    unfold gridAt. rewrite !Nat2Z.id, Hj, Hi. reflexivity. }
  clear -Hrow0. revert Hrow0.
  induction grid as [| row grid IH]; intros H; simpl; [reflexivity |].
  rewrite (H O row eq_refl), IH; [reflexivity |].
  intros j r Hj. apply (H (S j) r). exact Hj.
Qed.

(** With fewer turns than [holes + length frontier] plus one the loop does
    not reach its end. *)
Lemma growLoop_short (gridSize : Z) :
  1 <= gridSize ->
  forall (fuel : nat) (st : GenState),
    genInv gridSize st ->
    (fuel <= holes (genGrid st) + length (genFrontier st))%nat ->
    growLoop gridSize fuel st = None.
Proof.
  intros Hsize fuel. induction fuel as [| fuel IH]; intros st Hinv Hfuel; [reflexivity |].
  cbn [growLoop].
  destruct (growStep_inv gridSize st Hsize Hinv) as [[Hempty Hstep] | (st1 & -> & Hinv1 & Hm)].
  - exfalso. destruct Hinv as (Hwf & Hcentre & _ & Hclosed).
    assert (Hh : holes (genGrid st) = O).
    { apply (full_grid_holes gridSize); [exact Hwf |].
      apply closed_everywhere; [exact Hsize | exact Hcentre |].
      intros x y Hb Ha. destruct (Hclosed x y Hb Ha) as [(c & Hc & _) | Hc]; [| exact Hc].
      rewrite Hempty in Hc. inversion Hc. }
    rewrite Hh, Hempty in Hfuel. simpl in Hfuel. lia.
  - apply IH; [exact Hinv1 | lia].
Qed.

(** X14 (one turn for each cell).  For a grid side of at least 1 and any
    random source, the [while] loop of [generateGrid] ends after exactly
    [gridSize * gridSize] turns: a bound of that many turns or fewer is
    reached before the frontier is empty, any larger bound is not. *)
Theorem generateGrid_turns (gridSize : Z) (fuel : nat) (g : Rng) :
  1 <= gridSize ->
  (is_Some (generateGrid gridSize fuel g) <-> (Z.to_nat (gridSize * gridSize) < fuel)%nat).
Proof.
  intros Hsize. destruct (genInit_inv gridSize g Hsize) as [Hinv0 Hm0]. split.
  - intros [r Hr]. destruct (Nat.lt_ge_cases (Z.to_nat (gridSize * gridSize)) fuel)
      as [Hlt | Hge]; [exact Hlt |].
    unfold generateGrid in Hr.
    rewrite (growLoop_short gridSize Hsize fuel _ Hinv0) in Hr by lia. discriminate.
  - intros Hlt. unfold generateGrid.
    destruct (growLoop_inv gridSize Hsize fuel (genInit gridSize g) Hinv0)
      as (st & -> & _); [lia |]. eauto.
Qed.

Lemma generateGrid_turns_witness :
  is_Some (generateGrid 3 10 programRun) /\ generateGrid 3 9 programRun = None.
Proof.
  pose proof (generateGrid_turns 3 10 programRun) as H10.
  pose proof (generateGrid_turns 3 9 programRun) as H9.
  split.
  - apply H10; [discriminate |]. simpl. lia.
  - destruct (generateGrid 3 9 programRun) as [r |] eqn:E; [| reflexivity].
    exfalso. assert (Hs : is_Some (Some r)) by eauto.
    apply H9 in Hs; [| discriminate]. simpl in Hs. lia.
Defined.

(** * Meals *)

Lemma mapBlobs_meals (gridSize : Z) (bs : list Blob) (fd : list Food) (g : Rng)
      (out : list Blob) (fd' : list Food) (g' : Rng) :
  Forall (fun b => stepsSinceMeal b <> Js.num (-1)) bs ->
  mapBlobs gridSize bs fd g = Some (out, fd', g') ->
  fd ≡ₚ fd' ++ map cellOf (List.filter fedb out).
Proof.
  intros Hall. revert fd g out fd' g'.
  induction Hall as [| b bs Hb _ IH]; intros fd g out fd' g' H; simpl in H.
  - injection H as <- <- <-. simpl. rewrite app_nil_r. reflexivity.
  - destruct (stepBlob gridSize b fd g) as [[[b1 f1] g1] |] eqn:Es; [| discriminate].
    destruct (mapBlobs gridSize bs f1 g1) as [[[o f2] g2] |] eqn:Em; [| discriminate].
    injection H as <- <- <-. specialize (IH _ _ _ _ _ Em). simpl.
    destruct (stepBlob_food _ _ _ _ _ _ _ Es) as [[-> Hs] | (Hp & _ & Hf)].
    + destruct (fedb b1) eqn:Ef; [| exact IH].
      apply fedb_fed in Ef. unfold fed in Ef. rewrite Hs in Ef.
      apply add1_not_fed in Hb. contradiction.
    + apply fedb_fed in Hf. rewrite Hf, Hp, IH. simpl. apply Permutation_middle.
Qed.

(** X15 (a meal for one).  When no counter is [-1] before the tick, the old
    food list is a rearrangement of the new one followed by the cells of
    the blobs that have counter 0 after the tick: these are the blobs that
    ate, each on the cell of the item it ate.  If the food items were
    pairwise distinct, no two of these blobs are on the same cell and none
    of them is on a cell that still holds food. *)
Theorem meals_are_exclusive (gridSize : Z) (st : SimState) (g : Rng)
        (st' : SimState) (g' : Rng) :
  Forall (fun b => stepsSinceMeal b <> Js.num (-1)) (blobs st) ->
  advance gridSize st g = Some (st', g') ->
  food st ≡ₚ food st' ++ map cellOf (List.filter fedb (blobs st')) /\
  (NoDup (food st) ->
   NoDup (map cellOf (List.filter fedb (blobs st'))) /\
   forall b, b ∈ blobs st' -> fed b -> cellOf b ∉ food st').
Proof.
  intros Hall H. destruct (advance_unfold _ _ _ _ _ H) as (mapped & Hm & ->).
  pose proof (mapBlobs_meals _ _ _ _ _ _ _ Hall Hm) as Hp.
  rewrite fedb_filter_survives. split; [exact Hp |].
  intros Hnd. rewrite Hp in Hnd. apply NoDup_app in Hnd.
  destruct Hnd as (_ & Hdisj & Hnd). split; [exact Hnd |].
  intros b Hb Hf Hin. apply (Hdisj _ Hin).
  apply list_elem_of_In, in_map_iff. exists b. split; [reflexivity |].
  apply filter_In. split; [| apply fedb_fed; exact Hf].
  apply list_elem_of_In, filter_In in Hb. apply Hb.
Qed.

Lemma meals_are_exclusive_witness :
  exists st' g',
    advance 100 (mkSim [mkFood 5 5] [mkBlob 5 5 (Js.num 3); mkBlob 5 5 (Js.num 4)])
            (constRng (drawOf 1 2)) = Some (st', g') /\
    NoDup (map cellOf (List.filter fedb (blobs st'))).
Proof.
  destruct (advance 100 (mkSim [mkFood 5 5] [mkBlob 5 5 (Js.num 3); mkBlob 5 5 (Js.num 4)])
              (constRng (drawOf 1 2))) as [[st' g'] |] eqn:E; [| discriminate E].
  exists st', g'. split; [reflexivity |].
  apply (meals_are_exclusive 100 _ _ _ _) in E.
  - apply (proj2 E). simpl. apply NoDup_singleton.
  - simpl. repeat constructor; discriminate.
Defined.

(** X16 (a blob moves unless it eats where it stands).  Whenever the
    callback returns, either the blob stood on food, and then it is emitted
    on the same cell and nothing is drawn; or it did not, and then it is
    emitted on a different cell, which is on the grid, and exactly one
    random value is drawn. *)
Theorem blob_moves_or_eats_in_place (gridSize : Z) (b : Blob) (fd : list Food) (g : Rng)
        (b' : Blob) (fd' : list Food) (g' : Rng) :
  stepBlob gridSize b fd g = Some (b', fd', g') ->
  ((cellOf b ∈ fd) /\ cellOf b' = cellOf b /\ g' = g) \/
  ((cellOf b ∉ fd) /\ cellOf b' <> cellOf b /\ onGrid gridSize b' /\ g' = skip 1 g).
Proof.
  intros H. apply stepBlob_cases in H.
  destruct H as [(i & Hi & -> & _ & ->) | (Hcur & mv & Hmv & -> & Hcase)].
  - left. destruct (findIndex_Some _ _ _ Hi) as [a [Ha Hp]].
    apply foodAt_eq in Hp. subst a.
    split; [eapply list_elem_of_lookup_2; exact Ha | split; reflexivity].
  - right. apply neighborMoves_spec in Hmv.
    assert (Hpos : blobX b' = blobX b + dx mv /\ blobY b' = blobY b + dy mv).
    { destruct Hcase as [(i & _ & -> & _) | (_ & -> & _)]; simpl; split; reflexivity. }
    destruct Hpos as [Hx Hy]. split; [| split; [| split; [| reflexivity]]].
    + intros Hin. apply findIndex_None in Hcur.
      assert (existsb (foodAt (blobX b) (blobY b)) fd = true); [| congruence].
      apply existsb_exists. exists (cellOf b).
      split; [apply list_elem_of_In; exact Hin | apply foodAt_eq; reflexivity].
    + unfold cellOf. rewrite Hx, Hy. intros E. injection E as E1 E2. lia.
    + unfold onGrid. rewrite Hx, Hy. apply inBounds_spec. lia.
Qed.

Lemma blob_moves_or_eats_in_place_witness :
  exists b' fd' g',
    stepBlob 100 (mkBlob 0 0 (Js.num 3)) [mkFood 7 7] (constRng (drawOf 1 2))
    = Some (b', fd', g') /\ cellOf b' <> cellOf (mkBlob 0 0 (Js.num 3)).
Proof.
  destruct (stepBlob 100 (mkBlob 0 0 (Js.num 3)) [mkFood 7 7] (constRng (drawOf 1 2)))
    as [[[b' fd'] g'] |] eqn:E; [| discriminate E].
  exists b', fd', g'. split; [reflexivity |].
  destruct (blob_moves_or_eats_in_place 100 _ _ _ _ _ _ E) as [(Hin & _) | (_ & Hne & _)];
    [| exact Hne].
  apply list_elem_of_In in Hin. simpl in Hin. destruct Hin as [Hin | []]. discriminate.
Defined.
